(** * NodeTransport: an event-driven model of [src/node_transport.ts]

    The transport is a single JavaScript object driven by one event loop.
    Every method and every socket listener of the class is translated to a
    function on an explicit state, [World], which holds the fields of the
    [NodeTransport] instance together with the part of the environment the
    class talks to: the two socket objects (the [net.Socket] made by
    [createConnection] and the [tls.TLSSocket] made by [tlsConnect]), the
    listeners attached to them, the writes handed to [socket.write], and the
    suspended coroutines ([connect], [_closed], the async generator
    [iterate]).

    One [Event] is one turn of the event loop: a call made by the user of
    the class, an event emitted by a socket, or the completion callback of
    a write.  A handler runs to its next [await] (or to its end) without
    interleaving, and the continuation of an [await] on a promise settled
    inside a handler runs in the same turn (microtasks drain before the next
    I/O callback); the only continuations that wait for an event of their
    own are the ones whose promise is settled by a later callback.

    Not modelled: console output of the [debug] option, [setNoDelay], the
    option record passed to [tlsConnect] (none of them is read back by the
    class). *)

From Stdlib Require Import List String Ascii Bool Arith Lia ZArith.
From Stdlib Require Import Strings.Byte.
Import ListNotations.
Open Scope string_scope.
Open Scope list_scope.

Set Implicit Arguments.
Set Warnings "-register-all".

(** ** Values *)

(** A frame is a [Uint8Array]: the bytes of one chunk. *)
Definition Frame := list byte.

(** An [Error] object: its class name, message, the optional [code]
    property (set by Node on system errors, and by [NatsError]) and the
    error it chains, if any. *)
Inductive Error : Type :=
| MkError (name message : string) (code : option string)
          (chainedError : option Error).

Definition code (err : Error) : option string :=
  match err with MkError _ _ c _ => c end.

Definition chainedError (err : Error) : option Error :=
  match err with MkError _ _ _ ch => ch end.

(** A value in error position ([err?: Error], the argument of a promise
    rejection, the variable of a [catch]): an [Error] or [undefined]. *)
Definition Cause := option Error.

Definition undefined : Cause := None.

(** The results of [JSON.parse]. *)
Inductive Json : Type :=
| JNull
| JBool (b : bool)
| JNumber (n : Z)
| JString (s : string)
| JArray (items : list Json)
| JObject (fields : list (string * Json)).

(** JavaScript truthiness of a parsed value. *)
Definition truthy (j : Json) : bool :=
  match j with
  | JNull => false
  | JBool b => b
  | JNumber n => negb (Z.eqb n 0)
  | JString s => negb (s =? EmptyString)
  | JArray _ => true
  | JObject _ => true
  end.

Fixpoint lookup_field (k : string) (fields : list (string * Json))
  : option Json :=
  match fields with
  | [] => None
  | (k', v) :: rest => if k =? k' then Some v else lookup_field k rest
  end.

(** The [TypeError] raised by the runtime when a property is read from, or
    a pattern is destructured against, [undefined] or [null]. *)
Definition TypeError (message : string) : Error :=
  MkError "TypeError" message None None.

Definition not_an_object : Error :=
  TypeError "Cannot destructure property of undefined or null".

(** [const { k } = v] for a parsed value [v]: throws on [null], reads the
    property of an object (last definition wins in [JSON.parse]; the model
    keeps one entry per key), and gives [undefined] on the other values. *)
Definition destructure (k : string) (v : Json) : Error + option Json :=
  match v with
  | JNull => inl not_an_object
  | JObject fields => inr (lookup_field k fields)
  | _ => inr None
  end.

(** Truthiness of a possibly [undefined] property. *)
Definition truthy_opt (v : option Json) : bool :=
  match v with Some j => truthy j | None => false end.

(** [Deferred<T>]: a promise with its [resolve] and [reject] exposed.  A
    promise settles once; [resolve] and [reject] on a settled promise do
    nothing. *)
Inductive Deferred (T : Type) : Type :=
| Pending
| Resolved (value : T)
| Rejected (reason : Cause).

Arguments Pending {T}.
Arguments Resolved {T} value.
Arguments Rejected {T} reason.

Definition deferred {T : Type} : Deferred T := Pending.

Definition resolve {T : Type} (d : Deferred T) (v : T) : Deferred T :=
  match d with Pending => Resolved v | _ => d end.

Definition reject {T : Type} (d : Deferred T) (c : Cause) : Deferred T :=
  match d with Pending => Rejected c | _ => d end.

Definition is_resolved {T : Type} (d : Deferred T) : bool :=
  match d with Resolved _ => true | _ => false end.

(** [ConnectionOptions], as far as this file reads it: [tls] (an object, or
    absent) and [debug]; the rest is only passed on to [checkOptions]. *)
Record ConnectionOptions : Type := {
  tls : option Json;
  debug : bool;
  others : list (string * Json)
}.

Record HostPort : Type := { hostname : string; port : nat }.

(** ** The imports from nats-base-client

    [extractProtocolMessage], the [INFO] pattern and [checkOptions] are
    imported, not defined in the file; the model takes them as an
    interface.  [JSON.parse] belongs to the runtime and is taken the same
    way.  [extractProtocolMessage] returns a string, and the caller tests
    it for truthiness: the empty string means that no complete line is
    there yet. *)
Class BaseClient : Type := {
  extractProtocolMessage : list byte -> string;
  INFO_exec : string -> option string;
  JSON_parse : string -> Error + Json;
  checkOptions : Json -> ConnectionOptions -> option Error
}.

(** Modelled from the spec: [DataBuffer.concat] of nats-base-client, which
    the spec calls the internal byte accumulator: the chunks joined in
    order. *)
Definition DataBuffer_concat (chunks : list Frame) : list byte :=
  List.concat chunks.

(** Modelled from the spec: the value of [ErrorCode.CONNECTION_REFUSED],
    the public kind a refused connection is remapped to. *)
Definition CONNECTION_REFUSED : string := "CONNECTION_REFUSED".

(** Modelled from the spec: [NatsError.errorForCode] of nats-base-client,
    a constructor for typed errors: a [NatsError] of the given kind that
    keeps the error it was built from as its chained error. *)
Definition errorForCode (kind : string) (chained : Cause) : Error :=
  MkError "NatsError" kind (Some kind) chained.

Definition VERSION : string := "2.0.0-0".
Definition LANG : string := "nats.js".

(** ** Sockets, listeners and coroutines *)

(** The two socket objects a transport ever holds. *)
Inductive Handle : Type := RawSocket | TlsSocket.

(** The listener sets the class attaches.  Each set closes over one local
    variable that its [error] listener assigns and its [close] listener
    reads ([dialError], [peekError], [tlsError], [connError]). *)
Inductive Listeners : Type :=
| NoListeners
| DialListeners (dialError : Cause)
| PeekListeners (peekError : Cause)
| TlsListeners (tlsError : Cause)
| PumpListeners (connError : Cause).

(** A socket object: its listeners, whether [destroy] was called on it,
    and whether its TLS handshake has completed (the socket has emitted
    [secureConnect]). *)
Record SocketObj : Type := {
  listeners : Listeners;
  destroyed : bool;
  secure : bool
}.

Definition fresh_socket (l : Listeners) : SocketObj :=
  {| listeners := l; destroyed := false; secure := false |}.

Definition with_listeners (l : Listeners) (s : SocketObj) : SocketObj :=
  {| listeners := l; destroyed := destroyed s; secure := secure s |}.

Definition removeAllListeners_obj (s : SocketObj) : SocketObj :=
  with_listeners NoListeners s.

Definition destroy_obj (s : SocketObj) : SocketObj :=
  {| listeners := listeners s; destroyed := true; secure := secure s |}.

Definition mark_secure (s : SocketObj) : SocketObj :=
  {| listeners := listeners s; destroyed := destroyed s; secure := true |}.

(** What waits for the promise returned by [send]: the caller of [send],
    or the invocation of [_closed] suspended at [await this.send(...)],
    with its parameter [err]. *)
Inductive Awaiter : Type :=
| Caller
| ClosedResume (err : Cause).

(** Where the [connect] coroutine stands. *)
Inductive ConnectPc : Type :=
| NotStarted
| AwaitingDial
| AwaitingPeekInfo
| AwaitingStartTLS
| Fulfilled
| RejectedWith (reason : Cause).

(** Where the async generator [iterate] stands: not yet started, suspended
    at [await this.signal], suspended at [yield frame], or returned. *)
Inductive IterPc : Type :=
| ItStart
| ItAwaitSignal
| ItYield
| ItReturned.

(** ** The state *)

Record World : Type := {
  (* the fields of the NodeTransport instance *)
  socket : option Handle;
  yields : list Frame;
  signal : Deferred unit;
  closedNotification : Deferred Cause;
  options : option ConnectionOptions;
  connected : bool;
  done : bool;
  (* the environment *)
  rawSock : SocketObj;
  tlsSock : SocketObj;
  wire : list (Handle * Frame);
  writeCallbacks : list Awaiter;
  connectPc : ConnectPc;
  iterPc : IterPc;
  consumed : list Frame
}.

(** [new NodeTransport()]. *)
Definition init : World := {|
  socket := None;
  yields := [];
  signal := deferred;
  closedNotification := deferred;
  options := None;
  connected := false;
  done := false;
  rawSock := fresh_socket NoListeners;
  tlsSock := fresh_socket NoListeners;
  wire := [];
  writeCallbacks := [];
  connectPc := NotStarted;
  iterPc := ItStart;
  consumed := []
|}.

Definition set_socket (v : option Handle) (w : World) : World :=
  Build_World v (yields w) (signal w) (closedNotification w) (options w)
    (connected w) (done w) (rawSock w) (tlsSock w) (wire w)
    (writeCallbacks w) (connectPc w) (iterPc w) (consumed w).

Definition set_yields (v : list Frame) (w : World) : World :=
  Build_World (socket w) v (signal w) (closedNotification w) (options w)
    (connected w) (done w) (rawSock w) (tlsSock w) (wire w)
    (writeCallbacks w) (connectPc w) (iterPc w) (consumed w).

Definition set_signal (v : Deferred unit) (w : World) : World :=
  Build_World (socket w) (yields w) v (closedNotification w) (options w)
    (connected w) (done w) (rawSock w) (tlsSock w) (wire w)
    (writeCallbacks w) (connectPc w) (iterPc w) (consumed w).

Definition set_closedNotification (v : Deferred Cause) (w : World) : World :=
  Build_World (socket w) (yields w) (signal w) v (options w)
    (connected w) (done w) (rawSock w) (tlsSock w) (wire w)
    (writeCallbacks w) (connectPc w) (iterPc w) (consumed w).

Definition set_options (v : option ConnectionOptions) (w : World) : World :=
  Build_World (socket w) (yields w) (signal w) (closedNotification w) v
    (connected w) (done w) (rawSock w) (tlsSock w) (wire w)
    (writeCallbacks w) (connectPc w) (iterPc w) (consumed w).

Definition set_connected (v : bool) (w : World) : World :=
  Build_World (socket w) (yields w) (signal w) (closedNotification w)
    (options w) v (done w) (rawSock w) (tlsSock w) (wire w)
    (writeCallbacks w) (connectPc w) (iterPc w) (consumed w).

Definition set_done (v : bool) (w : World) : World :=
  Build_World (socket w) (yields w) (signal w) (closedNotification w)
    (options w) (connected w) v (rawSock w) (tlsSock w) (wire w)
    (writeCallbacks w) (connectPc w) (iterPc w) (consumed w).

Definition set_rawSock (v : SocketObj) (w : World) : World :=
  Build_World (socket w) (yields w) (signal w) (closedNotification w)
    (options w) (connected w) (done w) v (tlsSock w) (wire w)
    (writeCallbacks w) (connectPc w) (iterPc w) (consumed w).

Definition set_tlsSock (v : SocketObj) (w : World) : World :=
  Build_World (socket w) (yields w) (signal w) (closedNotification w)
    (options w) (connected w) (done w) (rawSock w) v (wire w)
    (writeCallbacks w) (connectPc w) (iterPc w) (consumed w).

Definition set_wire (v : list (Handle * Frame)) (w : World) : World :=
  Build_World (socket w) (yields w) (signal w) (closedNotification w)
    (options w) (connected w) (done w) (rawSock w) (tlsSock w) v
    (writeCallbacks w) (connectPc w) (iterPc w) (consumed w).

Definition set_writeCallbacks (v : list Awaiter) (w : World) : World :=
  Build_World (socket w) (yields w) (signal w) (closedNotification w)
    (options w) (connected w) (done w) (rawSock w) (tlsSock w) (wire w)
    v (connectPc w) (iterPc w) (consumed w).

Definition set_connectPc (v : ConnectPc) (w : World) : World :=
  Build_World (socket w) (yields w) (signal w) (closedNotification w)
    (options w) (connected w) (done w) (rawSock w) (tlsSock w) (wire w)
    (writeCallbacks w) v (iterPc w) (consumed w).

Definition set_iterPc (v : IterPc) (w : World) : World :=
  Build_World (socket w) (yields w) (signal w) (closedNotification w)
    (options w) (connected w) (done w) (rawSock w) (tlsSock w) (wire w)
    (writeCallbacks w) (connectPc w) v (consumed w).

Definition set_consumed (v : list Frame) (w : World) : World :=
  Build_World (socket w) (yields w) (signal w) (closedNotification w)
    (options w) (connected w) (done w) (rawSock w) (tlsSock w) (wire w)
    (writeCallbacks w) (connectPc w) (iterPc w) v.

(** The socket object behind a handle, and its update. *)
Definition sock (h : Handle) (w : World) : SocketObj :=
  match h with RawSocket => rawSock w | TlsSocket => tlsSock w end.

Definition set_sock (h : Handle) (s : SocketObj) (w : World) : World :=
  match h with
  | RawSocket => set_rawSock s w
  | TlsSocket => set_tlsSock s w
  end.

Definition on (h : Handle) (l : Listeners) (w : World) : World :=
  set_sock h (with_listeners l (sock h w)) w.

Definition removeAllListeners (h : Handle) (w : World) : World :=
  set_sock h (removeAllListeners_obj (sock h w)) w.

Definition destroy (h : Handle) (w : World) : World :=
  set_sock h (destroy_obj (sock h w)) w.

(** ** The methods of the class *)

(** How a block of an async function ends when it does not fall through:
    [return Promise.reject(c)], or an exception. *)
Inductive Completion : Type :=
| ReturnReject (c : Cause)
| Throws (e : Error).

(** [code === k] for the [code] property of an error. *)
Definition code_is (err : Error) (k : string) : bool :=
  match code err with Some c => c =? k | None => false end.

(** The [catch] block of [connect]: [const { code } = err] throws when
    [err] is [undefined]; otherwise a refused connection is remapped and
    every other error is passed on. *)
Definition connect_catch (err : Cause) : Completion :=
  match err with
  | None => Throws not_an_object
  | Some e =>
      ReturnReject
        (Some (if code_is e "ECONNREFUSED"
               then errorForCode CONNECTION_REFUSED (Some e)
               else e))
  end.

(** The promise of an async function is rejected by both ways of leaving
    its body. *)
Definition settle (c : Completion) : ConnectPc :=
  match c with
  | ReturnReject r => RejectedWith r
  | Throws e => RejectedWith (Some e)
  end.

(** An awaited promise of the [try] block of [connect] was rejected with
    [err], or a statement of the block threw it. *)
Definition connect_fail (err : Cause) (w : World) : World :=
  set_connectPc (settle (connect_catch err)) w.

(** [this.socket.on(...)] for a listener set.  [connect] calls [peekInfo]
    and [setupHandlers] after it assigned [this.socket], so the handle is
    there (lemma [handshake_has_socket]); without one the world is left
    as it is. *)
Definition on_this (l : Listeners) (w : World) : World :=
  match socket w with
  | Some h => on h l w
  | None => w
  end.

(** [dial]: [createConnection] makes the socket, the connect callback and
    the [error] and [close] listeners are attached, and the promise is
    returned pending. *)
Definition dial (hp : HostPort) (w : World) : World :=
  set_rawSock (fresh_socket (DialListeners undefined)) w.

Definition isClosed (w : World) : bool := done w.

(** [peekInfo]: attaches the [data], [error] and [close] listeners of the
    greeting read. *)
Definition peekInfo (w : World) : World :=
  on_this (PeekListeners undefined) w.

(** [startTLS]: [tlsConnect] makes the encrypted session around
    [this.socket]; the secure-connect callback and the [error] and
    [close] listeners are attached to the new socket. *)
Definition startTLS (w : World) : World :=
  set_tlsSock (fresh_socket (TlsListeners undefined)) w.

Definition setupHandlers (w : World) : World :=
  on_this (PumpListeners undefined) w.

Definition isEncrypted (w : World) : bool :=
  match socket w with
  | Some TlsSocket => true
  | _ => false
  end.

(** [new TextEncoder().encode] of the acknowledgment line: +OK CR LF. *)
Definition OK_FRAME : Frame := list_byte_of_string "+OK" ++ [x0d; x0a].

(** [socket.write(frame, cb)]: the frame goes to the socket and the
    callback waits for the completion of the write. *)
Definition socket_write (h : Handle) (frame : Frame) (k : Awaiter)
    (w : World) : World :=
  set_writeCallbacks (writeCallbacks w ++ [k])
    (set_wire (wire w ++ [(h, frame)]) w).

Inductive SendResult : Type :=
| SendResolved
| SendPending
| SendThrows (e : Error).

(** [send(frame)]; [k] is what awaits the promise it returns.  Before
    [connect] both [this.options] and [this.socket] are [undefined], and
    reading a property of either throws. *)
Definition send (frame : Frame) (k : Awaiter) (w : World)
  : World * SendResult :=
  if isClosed w then (w, SendResolved)
  else match options w with
       | None => (w, SendThrows not_an_object)
       | Some _ =>
           match socket w with
           | None => (w, SendThrows not_an_object)
           | Some h => (socket_write h frame k w, SendPending)
           end
       end.

(** [_closed] from its second [try] to its end. *)
Definition destroy_socket (w : World) : World :=
  match socket w with
  | Some h => destroy h (removeAllListeners h w)
  | None => w
  end.

Definition resolve_closedNotification (err : Cause) (w : World) : World :=
  set_closedNotification (resolve (closedNotification w) err) w.

Definition _closed_finish (err : Cause) (w : World) : World :=
  resolve_closedNotification err (set_done true (destroy_socket w)).

(** [_closed(err, internal)] up to its first suspension: at the [await] of
    the final write when there is one, at its end otherwise.  A [send]
    that threw is caught by the [try] around it. *)
Definition _closed (err : Cause) (internal : bool) (w : World) : World :=
  if negb (connected w) then w
  else if done w then w
  else match err, socket w with
       | None, Some _ =>
           match send OK_FRAME (ClosedResume err) w with
           | (w1, SendPending) => w1
           | (w1, _) => _closed_finish err w1
           end
       | _, _ => _closed_finish err w
       end.

Definition close (err : Cause) (w : World) : World := _closed err false w.

Definition disconnect (w : World) : World := _closed undefined true w.

Definition closed (w : World) : Deferred Cause := closedNotification w.

(** The completion callback of the oldest outstanding write, called with
    [res] (an error, or nothing).  The caller of [send] sees its promise
    settle; a suspended [_closed] resumes, and a rejection is swallowed by
    its [catch]. *)
Definition write_done (res : Cause) (w : World) : World :=
  match writeCallbacks w with
  | [] => w
  | k :: rest =>
      let w1 := set_writeCallbacks rest w in
      match k with
      | Caller => w1
      | ClosedResume err => _closed_finish err w1
      end
  end.

(** [iterate], from the inner [while] to the next suspension.  A frame is
    an object, hence truthy: [if (frame)] always holds. *)
Definition drain (w : World) : World :=
  match yields w with
  | frame :: rest =>
      set_iterPc ItYield
        (set_consumed (consumed w ++ [frame]) (set_yields rest w))
  | [] =>
      if done w then set_iterPc ItReturned w
      else set_iterPc ItAwaitSignal (set_signal deferred w)
  end.

(** The consumer asks for the next frame. *)
Definition next (w : World) : World :=
  match iterPc w with
  | ItStart => set_iterPc ItAwaitSignal w
  | ItYield => drain w
  | _ => w
  end.

(** The generator resumes from [await this.signal] once the signal is
    resolved. *)
Definition wake (w : World) : World :=
  match iterPc w with
  | ItAwaitSignal => if is_resolved (signal w) then drain w else w
  | _ => w
  end.

Section Transport.

Context {BC : BaseClient}.

(** The end of the [try] block of [connect]. *)
Definition connect_finish (w : World) : World :=
  let w1 := setupHandlers (set_connected true w) in
  set_connectPc Fulfilled (set_signal (resolve (signal w1) tt) w1).

(** [connect] from [checkOptions] on, with the greeting [info].
    [this.options] was assigned at the start of [connect] (lemma
    [handshake_has_socket]). *)
Definition connect_after_peek (info : Json) (w : World) : World :=
  match options w with
  | None => w
  | Some opts =>
      match checkOptions info opts with
      | Some e => connect_fail (Some e) w
      | None =>
          match destructure "tls_required" info with
          | inl e => connect_fail (Some e) w
          | inr tls_required =>
              if truthy_opt tls_required
              then set_connectPc AwaitingStartTLS (startTLS w)
              else connect_finish w
          end
      end
  end.

(** The body of the [try] inside the [data] listener of [peekInfo]. *)
Definition parse_greeting (pm : string) : Error + Json :=
  match INFO_exec pm with
  | None =>
      inl (MkError "Error" "unexpected response from server" None None)
  | Some m1 => JSON_parse m1
  end.

(** What the [data] listener of [peekInfo] does to its promise. *)
Inductive PeekOutcome : Type :=
| PeekPending
| PeekResolve (info : Json)
| PeekReject (err : Error).

Definition peek_data (frame : Frame) (ys : list Frame)
  : list Frame * PeekOutcome :=
  let ys1 := ys ++ [frame] in
  let t := DataBuffer_concat ys1 in
  let pm := extractProtocolMessage t in
  if pm =? EmptyString then (ys1, PeekPending)
  else match parse_greeting pm with
       | inr info => (ys1, PeekResolve info)
       | inl err => (ys1, PeekReject err)
       end.

(** The [data] listener of [peekInfo] on socket [h] (which is
    [this.socket]: only [connect] assigns it, and [connect] is suspended
    while these listeners are attached), followed by the continuation of
    [connect] when the promise settles. *)
Definition peek_onData (h : Handle) (frame : Frame) (w : World) : World :=
  let (ys1, outcome) := peek_data frame (yields w) in
  let w1 := set_yields ys1 w in
  match outcome with
  | PeekPending => w1
  | PeekResolve info => connect_after_peek info (removeAllListeners h w1)
  | PeekReject err => connect_fail (Some err) (removeAllListeners h w1)
  end.

(** The connect callback of [dial], followed by [connect] up to
    [await this.peekInfo()]. *)
Definition dial_onConnect (h : Handle) (w : World) : World :=
  set_connectPc AwaitingPeekInfo
    (peekInfo (set_socket (Some h) (removeAllListeners h w))).

(** The secure-connect callback of [startTLS], followed by the rest of
    [connect]. *)
Definition tls_onSecure (h : Handle) (w : World) : World :=
  connect_finish (set_socket (Some h) (removeAllListeners h w)).

(** The [data] listener of [setupHandlers]. *)
Definition pump_onData (frame : Frame) (w : World) : World :=
  let w1 := set_yields (yields w ++ [frame]) w in
  set_signal (resolve (signal w1) tt) w1.

(** The [close] listener of [setupHandlers]. *)
Definition pump_onClose (connError : Cause) (w : World) : World :=
  _closed connError false (set_socket None w).

(** [connect] up to [await this.dial(hp)].  A transport instance is
    connected once: the call is modelled on a transport whose [connect]
    was not called before. *)
Definition connect (hp : HostPort) (opts : ConnectionOptions) (w : World)
  : World :=
  match connectPc w with
  | NotStarted =>
      set_connectPc AwaitingDial (dial hp (set_options (Some opts) w))
  | _ => w
  end.

(** ** Events *)

Inductive SocketEvent : Type :=
| EvConnect
| EvSecureConnect
| EvData (frame : Frame)
| EvError (err : Error)
| EvClose.

(** Socket [h] emits [e]: the listener attached for it runs, if any. *)
Definition emit (h : Handle) (e : SocketEvent) (w0 : World) : World :=
  let w := match e with
           | EvSecureConnect => set_sock h (mark_secure (sock h w0)) w0
           | _ => w0
           end in
  match listeners (sock h w), e with
  | DialListeners _, EvConnect => dial_onConnect h w
  | DialListeners _, EvError err => on h (DialListeners (Some err)) w
  | DialListeners dialError, EvClose =>
      connect_fail dialError (removeAllListeners h w)
  | PeekListeners _, EvData frame => peek_onData h frame w
  | PeekListeners _, EvError err => on h (PeekListeners (Some err)) w
  | PeekListeners peekError, EvClose =>
      connect_fail peekError (removeAllListeners h w)
  | TlsListeners _, EvSecureConnect => tls_onSecure h w
  | TlsListeners _, EvError err => on h (TlsListeners (Some err)) w
  | TlsListeners tlsError, EvClose =>
      connect_fail tlsError (removeAllListeners h w)
  | PumpListeners _, EvData frame => pump_onData frame w
  | PumpListeners _, EvError err => on h (PumpListeners (Some err)) w
  | PumpListeners connError, EvClose => pump_onClose connError w
  | _, _ => w
  end.

(** One turn of the event loop. *)
Inductive Event : Type :=
| CallConnect (hp : HostPort) (opts : ConnectionOptions)
| Emit (h : Handle) (e : SocketEvent)
| WriteDone (res : Cause)
| CallClose (err : Cause)
| CallDisconnect
| CallSend (frame : Frame)
| Next
| Wake.

Definition step (ev : Event) (w : World) : World :=
  match ev with
  | CallConnect hp opts => connect hp opts w
  | Emit h e => emit h e w
  | WriteDone res => write_done res w
  | CallClose err => close err w
  | CallDisconnect => disconnect w
  | CallSend frame => fst (send frame Caller w)
  | Next => next w
  | Wake => wake w
  end.

Fixpoint run (evs : list Event) (w : World) : World :=
  match evs with
  | [] => w
  | ev :: rest => run rest (step ev w)
  end.

End Transport.

(** ** Schedules of the steady state *)

(** What happens between the handshake and the shutdown, as far as the
    frame queue is concerned: the socket delivers a chunk, the consumer
    asks for the next frame, the generator resumes from its [await]. *)
Inductive Tick : Type :=
| Data (frame : Frame)
| Pull
| Resume.

Definition tick_event (h : Handle) (t : Tick) : Event :=
  match t with
  | Data frame => Emit h (EvData frame)
  | Pull => Next
  | Resume => Wake
  end.

(** The socket delivers the chunks one after the other. *)
Definition data_events (h : Handle) (chunks : list Frame) : list Event :=
  map (fun frame => Emit h (EvData frame)) chunks.

(** The payloads of the data events of a schedule, in order. *)
Fixpoint payloads (ts : list Tick) : list Frame :=
  match ts with
  | [] => []
  | Data frame :: rest => frame :: payloads rest
  | _ :: rest => payloads rest
  end.

(** A consumer that keeps asking: [n] rounds of a request followed by the
    resumption of the generator. *)
Fixpoint pulls (n : nat) : list Event :=
  match n with
  | O => []
  | S m => Next :: Wake :: pulls m
  end.

(** The consumer can drain the queue: the transport is not done, the
    generator has not returned, and the signal is resolved, or pending
    with nothing queued. *)
Definition draining (w : World) : Prop :=
  done w = false /\
  iterPc w <> ItReturned /\
  (signal w = Resolved tt \/ (signal w = Pending /\ yields w = [])).

(** The frame pump is running on socket [h]: the listeners of
    [setupHandlers] are attached to it, and the consumer can drain. *)
Definition pumping (h : Handle) (w : World) : Prop :=
  (exists c, listeners (sock h w) = PumpListeners c) /\ draining w.

(** ** The invariant of the reachable states *)

Inductive ListenerKind : Type := KNone | KDial | KPeek | KTls | KPump.

Definition kind_of (s : SocketObj) : ListenerKind :=
  match listeners s with
  | NoListeners => KNone
  | DialListeners _ => KDial
  | PeekListeners _ => KPeek
  | TlsListeners _ => KTls
  | PumpListeners _ => KPump
  end.

Definition pump_or_none (s : SocketObj) : bool :=
  match kind_of s with KNone | KPump => true | _ => false end.

(** What each stage of [connect] leaves attached, and where [connected]
    and [this.socket] stand in it. *)
Definition phase_ok (w : World) : Prop :=
  match connectPc w with
  | NotStarted =>
      connected w = false /\ socket w = None /\
      kind_of (rawSock w) = KNone /\ kind_of (tlsSock w) = KNone
  | AwaitingDial =>
      connected w = false /\ socket w = None /\
      kind_of (rawSock w) = KDial /\ kind_of (tlsSock w) = KNone /\
      options w <> None
  | AwaitingPeekInfo =>
      connected w = false /\ socket w = Some RawSocket /\
      kind_of (rawSock w) = KPeek /\ kind_of (tlsSock w) = KNone /\
      options w <> None
  | AwaitingStartTLS =>
      connected w = false /\ socket w = Some RawSocket /\
      kind_of (rawSock w) = KNone /\ kind_of (tlsSock w) = KTls /\
      options w <> None
  | Fulfilled =>
      connected w = true /\ options w <> None /\
      pump_or_none (rawSock w) = true /\ pump_or_none (tlsSock w) = true
  | RejectedWith _ =>
      connected w = false /\ socket w <> Some TlsSocket /\
      kind_of (rawSock w) = KNone /\ kind_of (tlsSock w) = KNone
  end.

Definition is_closed_resume (k : Awaiter) : bool :=
  match k with ClosedResume _ => true | Caller => false end.

Record Inv (w : World) : Prop := {
  inv_phase : phase_ok w;
  inv_done : done w = true -> connected w = true;
  inv_closed : closedNotification w <> Pending -> done w = true;
  inv_waiters :
    existsb is_closed_resume (writeCallbacks w) = true -> connected w = true;
  inv_secure : socket w = Some TlsSocket -> secure (tlsSock w) = true
}.

(** ** Vocabulary of the further properties *)

(** The frame an event puts on the queue: a data event does, when the
    listeners of [peekInfo] or of [setupHandlers] are on the socket. *)
Definition delivered (ev : Event) (w : World) : list Frame :=
  match ev with
  | Emit h (EvData frame) =>
      match listeners (sock h w) with
      | PeekListeners _ | PumpListeners _ => [frame]
      | _ => []
      end
  | _ => []
  end.

Fixpoint delivered_run {BC : BaseClient} (evs : list Event) (w : World)
  : list Frame :=
  match evs with
  | [] => []
  | ev :: rest => delivered ev w ++ delivered_run rest (step ev w)
  end.

Definition is_data (ev : Event) : bool :=
  match ev with
  | Emit _ (EvData _) => true
  | _ => false
  end.

(** More facts of the reachable states: a connected transport that is not
    done holds a socket; before [connected] the signal is pending and the
    consumer has seen nothing; once the encrypted session is the socket,
    the raw socket carries no listener. *)
Record Inv2 (w : World) : Prop := {
  inv_live_socket :
    connected w = true -> done w = false -> socket w <> None;
  inv_quiet :
    connected w = false ->
    signal w = Pending /\ consumed w = [] /\
    (iterPc w = ItStart \/ iterPc w = ItAwaitSignal);
  inv_one_pump :
    socket w = Some TlsSocket -> kind_of (rawSock w) = KNone
}.

(** A shutdown is over, or one is suspended at its final write. *)
Definition shutting_down (w : World) : Prop :=
  (done w = true /\ closed w <> Pending) \/
  (done w = false /\ existsb is_closed_resume (writeCallbacks w) = true).

(** ** A sample base client

    An instance of the interface, used to run the model on concrete
    inputs. *)
Module Sample.

Definition CR : byte := x0d.
Definition LF : byte := x0a.

(** The bytes of [ba] up to and including the first CR LF, if there is
    one. *)
Fixpoint first_line (ba : list byte) : option (list byte) :=
  match ba with
  | [] => None
  | b :: rest =>
      match rest with
      | b' :: _ =>
          if Byte.eqb b CR && Byte.eqb b' LF then Some [CR; LF]
          else option_map (cons b) (first_line rest)
      | [] => None
      end
  end.

(** Modelled from the spec: the line extractor of nats-base-client, a pure
    function that, given accumulated bytes, returns the first complete
    protocol line if present, else nothing. *)
Definition extract (ba : list byte) : string :=
  match first_line ba with
  | Some l => string_of_list_byte l
  | None => EmptyString
  end.

(** Modelled from the spec: the greeting grammar, the word INFO, a blank
    and a payload that runs to the end of the line; the match gives the
    payload. *)
Definition info_exec (pm : string) : option string :=
  if String.prefix "INFO " pm && Nat.ltb 7 (String.length pm)
  then Some (String.substring 5 (String.length pm - 7) pm)
  else None.

Definition dq : string := String (ascii_of_nat 34) EmptyString.

Definition tls_true : string := "{" ++ dq ++ "tls_required" ++ dq ++ ":true}".

Definition SyntaxError : Error :=
  MkError "SyntaxError" "Unexpected token in JSON" None None.

(** [JSON.parse] on the payloads the examples use; a syntax error on the
    rest. *)
Definition json_parse (s : string) : Error + Json :=
  if s =? "{}" then inr (JObject [])
  else if s =? tls_true then inr (JObject [("tls_required", JBool true)])
  else if s =? "null" then inr JNull
  else inl SyntaxError.

Definition check_options (info : Json) (opts : ConnectionOptions)
  : option Error := None.

Definition client : BaseClient := {|
  extractProtocolMessage := extract;
  INFO_exec := info_exec;
  JSON_parse := json_parse;
  checkOptions := check_options
|}.

Definition crlf : list byte := [CR; LF].

Definition greeting : Frame := list_byte_of_string "INFO {}" ++ crlf.

Definition greeting_tls : Frame := list_byte_of_string ("INFO " ++ tls_true) ++ crlf.

Definition ping : Frame := list_byte_of_string "PING" ++ crlf.

Definition pong : Frame := list_byte_of_string "PONG" ++ crlf.

Definition hp : HostPort := {| hostname := "localhost"; port := 4222 |}.

Definition opts : ConnectionOptions :=
  {| tls := None; debug := false; others := [] |}.

Definition ECONNREFUSED : Error :=
  MkError "Error" "connect ECONNREFUSED 127.0.0.1:4222"
    (Some "ECONNREFUSED") None.

Definition ECONNRESET : Error :=
  MkError "Error" "read ECONNRESET" (Some "ECONNRESET") None.

(** A transport after a plain handshake: dialled, greeted, connected. *)
Definition established : World :=
  run (BC := client) [CallConnect hp opts; Emit RawSocket EvConnect;
       Emit RawSocket (EvData greeting)] init.

(** A transport waiting for the greeting. *)
Definition dialled : World :=
  run (BC := client) [CallConnect hp opts; Emit RawSocket EvConnect] init.

(** A transport whose greeting asked for TLS, before and after the
    encrypted session reported its handshake complete. *)
Definition upgrading : list Event :=
  [CallConnect hp opts; Emit RawSocket EvConnect;
   Emit RawSocket (EvData greeting_tls)].

Definition encrypted : list Event :=
  upgrading ++ [Emit TlsSocket EvSecureConnect].

(** A transport closed by an error of the socket. *)
Definition reset : list Event :=
  [CallConnect hp opts; Emit RawSocket EvConnect;
   Emit RawSocket (EvData greeting);
   Emit RawSocket (EvError ECONNRESET); Emit RawSocket EvClose].

(** The greeting line split over three chunks, the last of which goes on
    with a PING. *)
Definition chunk1 : Frame := list_byte_of_string "INF".
Definition chunk2 : Frame := list_byte_of_string "O {}" ++ [CR].
Definition chunk3 : Frame := [LF] ++ ping.

(** The handshake of [established], followed by a consumer that takes the
    greeting chunk and asks again: the generator waits on a fresh
    signal. *)
Definition waiting : list Event :=
  [CallConnect hp opts; Emit RawSocket EvConnect;
   Emit RawSocket (EvData greeting); Next; Wake; Next].


End Sample.


(** * Properties *)

Section Properties.

Context {BC : BaseClient}.

(** ** The invariant holds in every reachable state *)

Lemma Inv_init : Inv init.
Proof.
  split; unfold phase_ok, pump_or_none, kind_of; cbn; intuition congruence.
Qed.

Ltac break_world w :=
  destruct w as [sk ys sg cn op cd dn rs ts wr wc pc it cs];
  unfold phase_ok, pump_or_none, kind_of in *; cbn in *.

Ltac inv_fields :=
  split; unfold phase_ok, pump_or_none, kind_of; cbn;
  intuition (try congruence); eauto.

Lemma Inv_closed_finish (err : Cause) (w : World) :
  Inv w -> connected w = true -> Inv (_closed_finish err w).
Proof.
  intros [Hp Hd Hc Hw Hs] Hcon. break_world w. subst cd.
  unfold _closed_finish, resolve_closedNotification, destroy_socket.
  cbn.
  destruct pc; try (exfalso; intuition congruence).
  destruct sk as [[|]|]; cbn; inv_fields.
Qed.

Lemma existsb_closed_resume_app (l : list Awaiter) (k : Awaiter) :
  existsb is_closed_resume (l ++ [k]) =
  existsb is_closed_resume l || is_closed_resume k.
Proof. rewrite existsb_app. cbn. now rewrite orb_false_r. Qed.

Lemma Inv_closed (err : Cause) (internal : bool) (w : World) :
  Inv w -> Inv (_closed err internal w).
Proof.
  intros HI. unfold _closed.
  destruct (connected w) eqn:Hcon; cbn; [|assumption].
  destruct (done w) eqn:Hdone; [assumption|].
  destruct err as [e|].
  - now apply Inv_closed_finish.
  - destruct (socket w) as [h|] eqn:Hsock; [|now apply Inv_closed_finish].
    unfold send, isClosed. rewrite Hdone, Hsock.
    destruct (options w) eqn:Hopt; [|now apply Inv_closed_finish].
    destruct HI as [Hp Hd Hc Hw Hs]. break_world w. subst.
    unfold socket_write. cbn.
    split; unfold phase_ok, pump_or_none, kind_of; cbn;
      try assumption; auto.
Qed.

Lemma Inv_write_done (res : Cause) (w : World) :
  Inv w -> Inv (write_done res w).
Proof.
  intros HI. unfold write_done.
  destruct (writeCallbacks w) as [|k rest] eqn:Hwc; [assumption|].
  assert (HI' : Inv (set_writeCallbacks rest w)).
  { destruct HI as [Hp Hd Hc Hw Hs]. break_world w. subst.
    split; unfold phase_ok, pump_or_none, kind_of; cbn; try assumption.
    intros H. apply Hw. cbn. rewrite H. apply orb_true_r. }
  destruct k as [|err]; [assumption|].
  apply Inv_closed_finish; [assumption|].
  destruct HI as [Hp Hd Hc Hw Hs]. cbn. apply Hw. rewrite Hwc. reflexivity.
Qed.

Lemma Inv_emit (h : Handle) (e : SocketEvent) (w : World) :
  Inv w -> Inv (emit h e w).
Proof.
  intros [Hp Hd Hc Hw Hs].
  destruct w as [sk ys sg cn op cd dn [lr dr sr] [lt dt st] wr wc pc it cs].
  unfold phase_ok, pump_or_none, kind_of in *; cbn in *.
  destruct pc, lr, lt; cbn in Hp;
    try (exfalso; clear - Hp; intuition congruence);
    destruct h, e; cbn;
    try (split; unfold phase_ok, pump_or_none, kind_of; cbn; assumption).
  all: try (unfold pump_onClose; apply Inv_closed).
  all: unfold dial_onConnect, peek_onData, peek_data, tls_onSecure,
         pump_onData, connect_after_peek, connect_finish, connect_fail,
         peekInfo, startTLS, setupHandlers, on_this, on,
         removeAllListeners, set_sock, sock; cbn.
  all: repeat match goal with
         | |- context [connect_catch ?c] => is_var c; destruct c; cbn
         | |- context [match ?x with _ => _ end] => destruct x eqn:?; cbn
         | |- context [if ?x then _ else _] => destruct x eqn:?; cbn
         end.
  all: split; unfold phase_ok, pump_or_none, kind_of; cbn;
         intuition congruence.
Qed.

Lemma Inv_step (ev : Event) (w : World) : Inv w -> Inv (step ev w).
Proof.
  intros HI.
  destruct ev as [hp o|h e|res|err| |frame| |].
  - destruct HI as [Hp Hd Hc Hw Hs]. break_world w.
    unfold connect. cbn. destruct pc; cbn; try (split; cbn; assumption).
    inv_fields.
  - now apply Inv_emit.
  - now apply Inv_write_done.
  - now apply Inv_closed.
  - now apply Inv_closed.
  - cbn. unfold send, isClosed.
    destruct (done w); [assumption|].
    destruct (options w); [|assumption].
    destruct (socket w) eqn:Hsock; [|assumption].
    destruct HI as [Hp Hd Hc Hw Hs]. break_world w. subst.
    unfold socket_write. cbn.
    split; unfold phase_ok, pump_or_none, kind_of; cbn; try assumption.
    rewrite existsb_closed_resume_app. cbn. rewrite orb_false_r. assumption.
  - destruct HI as [Hp Hd Hc Hw Hs]. break_world w.
    unfold next, drain. cbn.
    destruct it; cbn; try (split; cbn; assumption).
    destruct ys; cbn; [destruct dn; cbn|]; split; cbn; assumption.
  - destruct HI as [Hp Hd Hc Hw Hs]. break_world w.
    unfold wake, drain. cbn.
    destruct it; cbn; try (split; cbn; assumption).
    destruct (is_resolved sg); cbn; try (split; cbn; assumption).
    destruct ys; cbn; [destruct dn; cbn|]; split; cbn; assumption.
Qed.

Lemma Inv_run (evs : list Event) (w : World) : Inv w -> Inv (run evs w).
Proof.
  revert w. induction evs as [|ev evs IH]; intros w HI; cbn; [assumption|].
  apply IH, Inv_step, HI.
Qed.

(** While [connect] waits for the greeting or for the TLS upgrade,
    [this.socket] is the socket made by [dial] and [this.options] is
    set. *)
Lemma handshake_has_socket (evs : list Event) :
  let w := run evs init in
  connectPc w = AwaitingPeekInfo \/ connectPc w = AwaitingStartTLS ->
  socket w = Some RawSocket /\ options w <> None.
Proof.
  cbn zeta. destruct (Inv_run evs Inv_init) as [Hp _ _ _ _].
  unfold phase_ok in Hp.
  intros [H|H]; rewrite H in Hp; intuition.
Qed.

Lemma run_app (evs1 evs2 : list Event) (w : World) :
  run (evs1 ++ evs2) w = run evs2 (run evs1 w).
Proof.
  revert w. induction evs1 as [|ev evs1 IH]; intros w; cbn; [reflexivity|].
  apply IH.
Qed.

(** ** Lifecycle flags *)

(** C7.  In every reachable state [done] implies [connected];
    [connected] is true exactly when [connect] has run to its successful
    end, never while it is suspended or after it was rejected; and while
    [connected] is false every entry of the shutdown coordinator
    ([_closed] itself, [close], [disconnect], and the call made by a
    socket close listener) returns without changing the state. *)
Theorem done_implies_connected (evs : list Event) :
  let w := run evs init in
  (done w = true -> connected w = true) /\
  (connected w = true <-> connectPc w = Fulfilled) /\
  (connected w = false ->
   forall (err : Cause) (internal : bool),
     _closed err internal w = w /\ close err w = w /\ disconnect w = w /\
     pump_onClose err w = set_socket None w).
Proof.
  cbn zeta.
  destruct (Inv_run evs Inv_init) as [Hp Hd _ _ _].
  split; [exact Hd|]. split.
  - unfold phase_ok in Hp. destruct (connectPc (run evs init));
      split; intros H; try reflexivity; try discriminate;
      intuition congruence.
  - intros Hc err internal.
    unfold pump_onClose, close, disconnect, _closed. cbn. rewrite Hc. cbn.
    repeat split.
Qed.

(** C10.  In every reachable state in which the promise returned by
    [closed()] is settled, [isClosed] is true; and inside [_closed] the
    flag is set before the promise is resolved: the state in which
    [resolve] is called already has [done = true] and still has the
    promise as it was. *)
Theorem done_before_closed_resolves (evs : list Event) :
  let w := run evs init in
  (closed w <> Pending -> isClosed w = true) /\
  (forall (err : Cause) (w0 : World),
     let w1 := set_done true (destroy_socket w0) in
     _closed_finish err w0 = resolve_closedNotification err w1 /\
     done w1 = true /\
     closedNotification w1 = closedNotification w0 /\
     done (_closed_finish err w0) = true).
Proof.
  cbn zeta. split.
  - destruct (Inv_run evs Inv_init) as [_ _ Hc _ _]. exact Hc.
  - intros err w0. unfold _closed_finish, destroy_socket.
    destruct (socket w0) as [[|]|]; repeat split.
Qed.

(** ** Encryption *)

Lemma secure_step (ev : Event) (w : World) :
  secure (tlsSock (step ev w)) = true ->
  secure (tlsSock w) = true \/ ev = Emit TlsSocket EvSecureConnect.
Proof.
  destruct w as [sk ys sg cn op cd dn [lr dr sr] [lt dt st] wr wc pc it cs].
  destruct ev as [hp o|h e|res|err| |frame| |]; cbn.
  - unfold connect; cbn. destruct pc; cbn; auto.
  - destruct h, e; auto; cbn; destruct lr, lt; cbn; auto.
    all: unfold dial_onConnect, peek_onData, peek_data, tls_onSecure,
           pump_onData, pump_onClose, connect_after_peek, connect_finish,
           connect_fail, peekInfo, startTLS, setupHandlers, on_this, on,
           _closed, _closed_finish, send, socket_write, destroy_socket,
           resolve_closedNotification, destroy, removeAllListeners,
           set_sock, sock; cbn.
    all: repeat match goal with
           | |- context [match ?x with _ => _ end] => destruct x eqn:?; cbn
           | |- context [if ?x then _ else _] => destruct x eqn:?; cbn
           end; auto; try discriminate.
  - unfold write_done, _closed_finish, destroy_socket; cbn.
    destruct wc as [|[|e] r]; cbn; auto. destruct sk as [[|]|]; cbn; auto.
  - unfold close, _closed, _closed_finish, destroy_socket, send; cbn.
    destruct cd, dn, err, sk as [[|]|], op; cbn; auto.
  - unfold disconnect, _closed, _closed_finish, destroy_socket, send; cbn.
    destruct cd, dn, sk as [[|]|], op; cbn; auto.
  - unfold send; cbn. destruct dn, op, sk; cbn; auto.
  - unfold next, drain; cbn. destruct it, ys, dn; cbn; auto.
  - unfold wake, drain; cbn.
    destruct it, (is_resolved sg), ys, dn; cbn; auto.
Qed.

Lemma secure_run (evs : list Event) (w : World) :
  secure (tlsSock (run evs w)) = true ->
  secure (tlsSock w) = true \/ In (Emit TlsSocket EvSecureConnect) evs.
Proof.
  revert w. induction evs as [|ev evs IH]; intros w H; cbn in *; auto.
  destruct (IH _ H) as [H1|H1]; auto.
  destruct (secure_step _ _ H1); auto.
Qed.

(** C8.  In every reachable state in which [isEncrypted()] answers true,
    the encrypted session has reported the end of its handshake (the
    secure-connect event is in the trace, after the session was made),
    [this.socket] is the encrypted session, and [connect] has run to its
    end: the answer is never true before that point. *)
Theorem isEncrypted_only_after_secure (evs : list Event) :
  let w := run evs init in
  isEncrypted w = true ->
  secure (tlsSock w) = true /\
  In (Emit TlsSocket EvSecureConnect) evs /\
  socket w = Some TlsSocket /\
  connectPc w = Fulfilled.
Proof.
  cbn zeta. intros He.
  assert (Hs : socket (run evs init) = Some TlsSocket).
  { unfold isEncrypted in He. destruct (socket (run evs init)) as [[|]|];
      congruence. }
  destruct (Inv_run evs Inv_init) as [Hp _ _ _ Hsec].
  specialize (Hsec Hs). repeat split; auto.
  - destruct (secure_run _ _ Hsec) as [H|H]; [discriminate H|exact H].
  - unfold phase_ok in Hp. destruct (connectPc (run evs init));
      intuition congruence.
Qed.

(** ** Errors of connect *)

(** C3.  For every error [e] caught by [connect]: the catch block rejects
    with the CONNECTION_REFUSED error built around [e] when the code of
    [e] is ECONNREFUSED, and with [e] itself otherwise.  This is what
    [connect] is rejected with wherever the error comes from: an error
    event followed by a close during the dial, the greeting read or the
    TLS upgrade, a throw of [checkOptions], or a greeting that does not
    parse. *)
Theorem connect_error_translation (e : Error) :
  connect_catch (Some e) =
    ReturnReject
      (Some (if code_is e "ECONNREFUSED"
             then errorForCode CONNECTION_REFUSED (Some e) else e)) /\
  (code e = Some "ECONNREFUSED" ->
   settle (connect_catch (Some e)) =
     RejectedWith (Some (errorForCode CONNECTION_REFUSED (Some e))) /\
   code (errorForCode CONNECTION_REFUSED (Some e)) = Some CONNECTION_REFUSED /\
   chainedError (errorForCode CONNECTION_REFUSED (Some e)) = Some e) /\
  (code e <> Some "ECONNREFUSED" ->
   settle (connect_catch (Some e)) = RejectedWith (Some e)) /\
  (forall (h : Handle) (w : World) (l : Listeners),
     listeners (sock h w) = l ->
     (exists c, l = DialListeners c \/ l = PeekListeners c \/
                l = TlsListeners c) ->
     connectPc (run [Emit h (EvError e); Emit h EvClose] w) =
       settle (connect_catch (Some e))) /\
  (forall (w : World) (opts : ConnectionOptions) (info : Json),
     options w = Some opts -> checkOptions info opts = Some e ->
     connectPc (connect_after_peek info w) =
       settle (connect_catch (Some e))) /\
  (forall (h : Handle) (w : World) (frame : Frame) (c : Cause),
     listeners (sock h w) = PeekListeners c ->
     snd (peek_data frame (yields w)) = PeekReject e ->
     connectPc (emit h (EvData frame) w) = settle (connect_catch (Some e))).
Proof.
  split; [reflexivity|]. split; [|split; [|split; [|split]]].
  - intros Hc. unfold connect_catch, code_is. rewrite Hc. cbn. auto.
  - intros Hc. unfold connect_catch, code_is.
    destruct (code e) as [c|] eqn:E; [|reflexivity].
    destruct (String.eqb_spec c "ECONNREFUSED"); [congruence|reflexivity].
  - intros h w l Hl [c Hk]. subst l.
    destruct w as [sk ys sg cn op cd dn [lr dr sr] [lt dt st] wr wc pc it cs].
    destruct h; cbn in *; destruct Hk as [Hk|[Hk|Hk]]; rewrite Hk;
      reflexivity.
  - intros w opts info Ho Hc. unfold connect_after_peek.
    rewrite Ho, Hc. reflexivity.
  - intros h w frame c Hl Hp. unfold emit. rewrite Hl.
    unfold peek_onData. destruct (peek_data frame (yields w)) as [ys1 o].
    cbn in Hp. subst o. reflexivity.
Qed.

(** ** Sending and shutting down *)

(** C5.  On a transport that is done, [send] returns a resolved promise,
    hands nothing to the socket and leaves the state as it is, whatever
    the frame. *)
Theorem send_after_done (frame : Frame) (k : Awaiter) (w : World) :
  isClosed w = true ->
  send frame k w = (w, SendResolved) /\
  step (CallSend frame) w = w /\
  wire (fst (send frame k w)) = wire w.
Proof.
  intros H. unfold step, send. rewrite H. repeat split.
Qed.

(** C9.  On a connected transport that is not done and still holds a
    socket, [_closed] called without an error writes one frame, the five
    bytes +OK CR LF, to that socket and suspends: nothing is destroyed and
    nothing is resolved before the write completes.  When the write
    completes, with or without an error, the coordinator removes the
    listeners of the socket it then holds, destroys it, sets [done] and
    resolves the closure notification. *)
Theorem final_write_then_shutdown (h : Handle) (opts : ConnectionOptions)
    (internal : bool) (w : World) :
  connected w = true -> done w = false ->
  socket w = Some h -> options w = Some opts ->
  let w1 := _closed undefined internal w in
  wire w1 = wire w ++ [(h, OK_FRAME)] /\
  OK_FRAME = list_byte_of_string "+OK" ++ [x0d; x0a] /\
  List.length OK_FRAME = 5 /\
  writeCallbacks w1 = writeCallbacks w ++ [ClosedResume undefined] /\
  rawSock w1 = rawSock w /\ tlsSock w1 = tlsSock w /\
  socket w1 = socket w /\
  done w1 = false /\
  closedNotification w1 = closedNotification w /\
  (forall (res : Cause) (w2 : World) (rest : list Awaiter),
     writeCallbacks w2 = ClosedResume undefined :: rest ->
     let w3 := write_done res w2 in
     done w3 = true /\
     closedNotification w3 = resolve (closedNotification w2) undefined /\
     closedNotification w3 <> Pending /\
     writeCallbacks w3 = rest /\
     wire w3 = wire w2 /\
     (forall h2, socket w2 = Some h2 ->
        destroyed (sock h2 w3) = true /\
        listeners (sock h2 w3) = NoListeners)).
Proof.
  intros Hc Hd Hs Ho. cbn zeta.
  unfold _closed, send, isClosed, undefined.
  rewrite Hc, Hd, Hs, Ho. cbn.
  do 9 (split; [cbn; rewrite ?Hs, ?Hd; reflexivity|]).
  intros res w2 rest Hw. unfold write_done. rewrite Hw. cbn.
  unfold _closed_finish, resolve_closedNotification, destroy_socket.
  destruct w2 as [sk ys sg cn op cd dn [lr dr sr] [lt dt st] wr wc pc it cs].
  cbn in *.
  destruct sk as [[|]|]; cbn; repeat split;
    try (destruct cn; cbn; congruence);
    try match goal with
        | H : Some _ = Some _ |- _ => inversion H; subst; reflexivity
        | H : None = Some _ |- _ => discriminate H
        end.
Qed.

(** Calls that do not overlap: once an invocation has reached its end,
    every later one is a no-op. *)
Lemma closed_after_done (err : Cause) (internal : bool) (w : World) :
  done w = true -> _closed err internal w = w.
Proof.
  intros H. unfold _closed. rewrite H. destruct (connected w); reflexivity.
Qed.

(** The closure notification settles once: no event changes a settled
    one. *)
Lemma closed_settles_once (ev : Event) (w : World) :
  closed w <> Pending -> closed (step ev w) = closed w.
Proof.
  intros Hc.
  destruct w as [sk ys sg cn op cd dn [lr dr sr] [lt dt st] wr wc pc it cs].
  unfold closed in *. cbn in Hc.
  assert (Hr : forall c, resolve cn c = cn) by (destruct cn; intuition).
  destruct ev as [hp o|h e|res|err| |frame| |]; cbn.
  - unfold connect; cbn. destruct pc; reflexivity.
  - destruct h, e; cbn; try reflexivity; destruct lr, lt; cbn;
      try reflexivity.
    all: unfold dial_onConnect, peek_onData, peek_data, tls_onSecure,
           pump_onData, pump_onClose, connect_after_peek, connect_finish,
           connect_fail, peekInfo, startTLS, setupHandlers, on_this, on,
           _closed, _closed_finish, send, socket_write, destroy_socket,
           resolve_closedNotification, destroy, removeAllListeners,
           set_sock, sock; cbn.
    all: repeat match goal with
           | |- context [match ?x with _ => _ end] => destruct x eqn:?; cbn
           | |- context [if ?x then _ else _] => destruct x eqn:?; cbn
           end; auto.
  - unfold write_done, _closed_finish, destroy_socket; cbn.
    destruct wc as [|[|e] r]; cbn; auto. destruct sk as [[|]|]; cbn; auto.
  - unfold close, _closed, _closed_finish, destroy_socket, send; cbn.
    destruct cd, dn, err, sk as [[|]|], op; cbn; auto.
  - unfold disconnect, _closed, _closed_finish, destroy_socket, send; cbn.
    destruct cd, dn, sk as [[|]|], op; cbn; auto.
  - unfold send; cbn. destruct dn, op, sk; cbn; auto.
  - unfold next, drain; cbn. destruct it, ys, dn; cbn; auto.
  - unfold wake, drain; cbn.
    destruct it, (is_resolved sg), ys, dn; cbn; auto.
Qed.

(** ** The frame queue *)

Lemma pumping_draining (h : Handle) (w : World) :
  pumping h w -> draining w.
Proof. intros (_ & H). exact H. Qed.

Ltac queue_facts :=
  cbn; rewrite <- ?app_assoc, ?app_nil_r; cbn;
  repeat match goal with
         | |- _ /\ _ => split
         | |- _ <> _ => first [discriminate | congruence]
         | |- _ = _ => first [reflexivity | congruence]
         | |- _ \/ _ => first [left; reflexivity | right; split; reflexivity]
         | |- exists _, _ => eexists; reflexivity
         end.

(** One request of the consumer and one resumption of the generator take
    the head of the queue, if there is one. *)
Lemma round_drains_one (w : World) :
  draining w ->
  let w' := run [Next; Wake] w in
  draining w' /\
  consumed w' ++ yields w' = consumed w ++ yields w /\
  List.length (yields w') = pred (List.length (yields w)).
Proof.
  intros (Hd & Hi & Hs).
  destruct w as [sk ys sg cn op cd dn rs ts wr wc pc it cs].
  unfold draining. cbn in *. subst dn.
  destruct Hs as [Hs|[Hs Hy]]; subst;
    (destruct it; [| | |congruence]); try destruct ys as [|f rest];
    queue_facts.
Qed.

Lemma pulls_drain (n : nat) (w : World) :
  draining w -> List.length (yields w) <= n ->
  consumed (run (pulls n) w) = consumed w ++ yields w /\
  yields (run (pulls n) w) = [].
Proof.
  revert w. induction n as [|n IH]; intros w Hd Hn.
  - destruct (yields w) eqn:E; cbn in Hn; [|lia].
    cbn. rewrite E, app_nil_r. auto.
  - destruct (round_drains_one Hd) as (Hd' & Hc & Hl).
    change (run (pulls (S n)) w) with (run (pulls n) (run [Next; Wake] w)).
    destruct (IH _ Hd') as (H1 & H2); [lia|].
    rewrite H1, H2, Hc. auto.
Qed.

Lemma tick_pumping (h : Handle) (t : Tick) (w : World) :
  pumping h w ->
  pumping h (step (tick_event h t) w) /\
  consumed (step (tick_event h t) w) ++ yields (step (tick_event h t) w) =
    consumed w ++ yields w ++ payloads [t].
Proof.
  intros ((c & Hl) & Hd & Hi & Hs).
  destruct w as [sk ys sg cn op cd dn [lr dr sr] [lt dt st] wr wc pc it cs].
  unfold pumping, draining. cbn in *. subst dn.
  destruct t as [frame| |]; cbn.
  - unfold emit. cbn. rewrite Hl. unfold pump_onData. cbn.
    destruct Hs as [Hs|[Hs Hy]]; subst; destruct h; cbn in *; subst;
      queue_facts.
  - unfold next, drain. cbn.
    destruct Hs as [Hs|[Hs Hy]]; subst; destruct h; cbn in *; subst;
      destruct it; try destruct ys; queue_facts.
  - unfold wake, drain. cbn.
    destruct Hs as [Hs|[Hs Hy]]; subst; destruct h; cbn in *; subst;
      destruct it; try destruct ys; queue_facts.
Qed.

Lemma ticks_pumping (h : Handle) (ts : list Tick) (w : World) :
  pumping h w ->
  pumping h (run (map (tick_event h) ts) w) /\
  consumed (run (map (tick_event h) ts) w) ++
    yields (run (map (tick_event h) ts) w) =
    consumed w ++ yields w ++ payloads ts.
Proof.
  revert w. induction ts as [|t ts IH]; intros w Hp; cbn [map run].
  - cbn. now rewrite app_nil_r.
  - destruct (tick_pumping t Hp) as (Hp' & Hc).
    destruct (IH _ Hp') as (Hp'' & Hc'). split; [exact Hp''|].
    rewrite Hc', app_assoc, Hc, <- !app_assoc. f_equal. f_equal.
    destruct t; cbn; now rewrite ?app_nil_r.
Qed.

(** C6.  While the frame pump runs, whatever the interleaving of data
    events, requests of the consumer and resumptions of the generator,
    the frames already consumed followed by the frames still queued are
    the ones that were there before followed by the payloads of the data
    events, in the order of arrival; and a consumer that keeps asking
    ends up with all of them, in that order, and an empty queue.  From
    an empty queue the consumer sees exactly the payloads. *)
Theorem frames_reach_consumer_in_order (h : Handle) (ts : list Tick)
    (w : World) :
  pumping h w ->
  let w1 := run (map (tick_event h) ts) w in
  let w2 := run (pulls (List.length (yields w1))) w1 in
  consumed w1 ++ yields w1 = consumed w ++ yields w ++ payloads ts /\
  consumed w2 = consumed w ++ yields w ++ payloads ts /\
  yields w2 = [] /\
  (consumed w = [] -> yields w = [] -> consumed w2 = payloads ts).
Proof.
  intros Hp. cbn zeta.
  destruct (ticks_pumping ts Hp) as (Hp1 & Hc).
  destruct (pulls_drain (pumping_draining Hp1) (le_n _)) as (H1 & H2).
  rewrite H1, H2, Hc. repeat split; auto.
  intros E1 E2. rewrite E1, E2. reflexivity.
Qed.

(** ** The greeting read *)

Lemma peek_pending_run (pre : list Frame) (w : World) (c : Cause) :
  listeners (rawSock w) = PeekListeners c ->
  (forall p q, pre = p ++ q -> p <> [] ->
     extractProtocolMessage (DataBuffer_concat (yields w ++ p)) =
       EmptyString) ->
  run (data_events RawSocket pre) w = set_yields (yields w ++ pre) w.
Proof.
  revert w. induction pre as [|a pre IH]; intros w Hl Hp.
  - cbn. rewrite app_nil_r. now destruct w.
  - cbn [data_events map run step].
    assert (Hstep : emit RawSocket (EvData a) w =
                    set_yields (yields w ++ [a]) w).
    { unfold emit. cbn. rewrite Hl. unfold peek_onData, peek_data.
      rewrite (Hp [a] pre eq_refl) by discriminate. reflexivity. }
    rewrite Hstep.
    change (map (fun frame => Emit RawSocket (EvData frame)) pre)
      with (data_events RawSocket pre).
    rewrite IH.
    + cbn. rewrite <- app_assoc. reflexivity.
    + cbn. exact Hl.
    + intros p q E Hne. cbn. rewrite <- app_assoc.
      apply (Hp (a :: p) q); [cbn; now rewrite E|discriminate].
Qed.

Lemma dialled_world (hp : HostPort) (opts : ConnectionOptions) :
  run [CallConnect hp opts; Emit RawSocket EvConnect] init =
  set_connectPc AwaitingPeekInfo
    (set_rawSock (fresh_socket (PeekListeners undefined))
       (set_socket (Some RawSocket) (set_options (Some opts) init))).
Proof. reflexivity. Qed.

Lemma greeting_completes (pre : list Frame) (last : Frame) (m1 : string)
    (info : Json) (w : World) (c : Cause) :
  listeners (rawSock w) = PeekListeners c ->
  yields w = [] ->
  (forall p q, pre = p ++ q -> p <> [] ->
     extractProtocolMessage (DataBuffer_concat p) = EmptyString) ->
  extractProtocolMessage (DataBuffer_concat (pre ++ [last])) <> EmptyString ->
  INFO_exec (extractProtocolMessage (DataBuffer_concat (pre ++ [last])))
    = Some m1 ->
  JSON_parse m1 = inr info ->
  run (data_events RawSocket pre) w = set_yields pre w /\
  peek_data last pre = (pre ++ [last], PeekResolve info) /\
  run (data_events RawSocket (pre ++ [last])) w =
    connect_after_peek info
      (removeAllListeners RawSocket (set_yields (pre ++ [last]) w)).
Proof.
  intros Hl Hy Hpre Hpm Hm Hj.
  assert (Hrun : run (data_events RawSocket pre) w = set_yields pre w).
  { rewrite (@peek_pending_run pre w _ Hl); [now rewrite Hy|].
    intros p q E Hne. rewrite Hy. now apply (Hpre p q). }
  assert (Hpeek : peek_data last pre = (pre ++ [last], PeekResolve info)).
  { unfold peek_data.
    destruct (String.eqb_spec
                (extractProtocolMessage (DataBuffer_concat (pre ++ [last])))
                EmptyString) as [E|_]; [contradiction|].
    unfold parse_greeting. rewrite Hm, Hj. reflexivity. }
  split; [exact Hrun|]. split; [exact Hpeek|].
  unfold data_events. rewrite map_app, run_app.
  fold (data_events RawSocket pre). rewrite Hrun.
  cbn [map run step]. unfold emit.
  replace (listeners (sock RawSocket (set_yields pre w)))
    with (PeekListeners c) by (symmetry; exact Hl).
  unfold peek_onData. cbn [yields set_yields]. rewrite Hpeek.
  reflexivity.
Qed.

Lemma plain_connect_finishes (info : Json) (opts : ConnectionOptions)
    (v : option Json) (w : World) :
  options w = Some opts -> checkOptions info opts = None ->
  destructure "tls_required" info = inr v -> truthy_opt v = false ->
  connect_after_peek info w = connect_finish w.
Proof.
  intros Ho Hc Hv Ht. unfold connect_after_peek.
  rewrite Ho, Hc, Hv, Ht. reflexivity.
Qed.

Lemma connect_finish_draining (w : World) :
  done w = false -> iterPc w <> ItReturned -> signal w = Pending ->
  draining (connect_finish w) /\
  yields (connect_finish w) = yields w /\
  consumed (connect_finish w) = consumed w /\
  connectPc (connect_finish w) = Fulfilled /\
  connected (connect_finish w) = true.
Proof.
  intros Hd Hi Hs.
  destruct w as [sk ys sg cn op cd dn [lr dr sr] [lt dt st] wr wc pc it cs].
  cbn in *. subst.
  unfold draining, connect_finish, setupHandlers, on_this, on.
  destruct sk as [[|]|]; cbn; repeat split; auto.
Qed.

(** C2, as amended.  For every sequence of chunks of which the last one is
    the first to complete a greeting line (whatever bytes follow the
    line): [peekInfo] stays pending up to the last chunk and resolves
    with the parsed greeting on it, and every chunk is in the queue, in
    the order of arrival.  The greeting bytes are not taken out: on a
    plain connection that the option check accepts, a consumer that keeps
    asking is yielded all the chunks, greeting and extra bytes alike,
    each one once and in that order. *)
Theorem greeting_chunks_stay_queued (hp : HostPort)
    (opts : ConnectionOptions) (pre : list Frame) (last : Frame)
    (m1 : string) (info : Json) :
  (forall p q, pre = p ++ q -> p <> [] ->
     extractProtocolMessage (DataBuffer_concat p) = EmptyString) ->
  extractProtocolMessage (DataBuffer_concat (pre ++ [last])) <> EmptyString ->
  INFO_exec (extractProtocolMessage (DataBuffer_concat (pre ++ [last])))
    = Some m1 ->
  JSON_parse m1 = inr info ->
  let chunks := pre ++ [last] in
  let w0 := run [CallConnect hp opts; Emit RawSocket EvConnect] init in
  let w := run (data_events RawSocket chunks) w0 in
  connectPc (run (data_events RawSocket pre) w0) = AwaitingPeekInfo /\
  peek_data last (yields (run (data_events RawSocket pre) w0)) =
    (chunks, PeekResolve info) /\
  yields w = chunks /\
  (checkOptions info opts = None ->
   (exists v, destructure "tls_required" info = inr v /\
              truthy_opt v = false) ->
   let w' := run (pulls (List.length chunks)) w in
   connectPc w = Fulfilled /\ connected w = true /\
   consumed w = [] /\
   consumed w' = chunks /\ yields w' = [] /\
   DataBuffer_concat (consumed w') = DataBuffer_concat pre ++ last).
Proof.
  intros Hpre Hpm Hm Hj. cbn zeta. rewrite dialled_world.
  set (w0 := set_connectPc _ _).
  destruct (@greeting_completes pre last m1 info w0 undefined
              eq_refl eq_refl Hpre Hpm Hm Hj) as (Hrun & Hpeek & Hfinal).
  rewrite Hrun, Hfinal. clear Hrun Hfinal.
  split; [reflexivity|]. split; [exact Hpeek|].
  set (w1 := removeAllListeners RawSocket (set_yields (pre ++ [last]) w0)).
  split.
  - unfold connect_after_peek.
    replace (options w1) with (Some opts) by reflexivity.
    destruct (checkOptions info opts); [reflexivity|].
    destruct (destructure "tls_required" info); [reflexivity|].
    destruct (truthy_opt o); reflexivity.
  - intros Hc (v & Hv & Ht).
    rewrite (@plain_connect_finishes info opts v w1 eq_refl Hc Hv Ht).
    destruct (@connect_finish_draining w1 eq_refl
                ltac:(discriminate) eq_refl)
      as (Hd & Hy & Hcs & Hpc & Hcon).
    destruct (@pulls_drain (List.length (pre ++ [last])) _ Hd)
      as (H1 & H2).
    { rewrite Hy. apply le_n. }
    rewrite H1, H2, Hy, Hcs, Hpc, Hcon.
    repeat split.
    change (consumed w1) with (@nil Frame).
    change (yields w1) with (pre ++ [last]). cbn [app].
    unfold DataBuffer_concat. rewrite concat_app. cbn.
    now rewrite app_nil_r.
Qed.

End Properties.

(** * Runs of the model on the sample client *)

Section Runs.

#[local] Existing Instance Sample.client.

Example sample_established :
  connected Sample.established = true /\
  connectPc Sample.established = Fulfilled /\
  yields Sample.established = [Sample.greeting] /\
  signal Sample.established = Resolved tt /\
  listeners (rawSock Sample.established) = PumpListeners None.
Proof. vm_compute. repeat split. Qed.

Example sample_pumping : pumping RawSocket Sample.established.
Proof.
  split; [exists None; reflexivity|].
  split; [reflexivity|]. split; [discriminate|left; reflexivity].
Qed.

(** C1: the failing run.  The first call of [close], without a cause, is
    suspended at the final write; a second call, with a cause, made before
    that write completes passes the [done] guard, settles the closure
    notification with its own cause, and the resumption of the first call
    changes nothing.  The same happens when the second invocation comes
    from the close listener of the socket after an error event.  A
    second call without a cause is no no-op either: it writes the
    acknowledgment frame again. *)
Theorem overlapping_close_takes_later_cause :
  let w1 := run [CallClose undefined] Sample.established in
  let w2 := run [CallClose (Some Sample.ECONNRESET)] w1 in
  let w3 := run [WriteDone undefined] w2 in
  (done w1 = false /\ closed w1 = Pending /\
   wire w1 = [(RawSocket, OK_FRAME)] /\
   writeCallbacks w1 = [ClosedResume undefined]) /\
  closed w2 = Resolved (Some Sample.ECONNRESET) /\
  closed w3 = Resolved (Some Sample.ECONNRESET) /\
  closed w3 <> Resolved undefined /\
  closed (run [CallClose undefined;
               Emit RawSocket (EvError Sample.ECONNRESET);
               Emit RawSocket EvClose;
               WriteDone (Some Sample.ECONNRESET)] Sample.established)
    = Resolved (Some Sample.ECONNRESET) /\
  wire (run [CallClose undefined; CallDisconnect] Sample.established)
    = [(RawSocket, OK_FRAME); (RawSocket, OK_FRAME)].
Proof.
  cbv zeta. repeat split; try (vm_compute; reflexivity).
  vm_compute. discriminate.
Qed.

(** C4: the failing run.  The server accepts the connection and closes it
    before it sends a greeting, with no error event: [peekInfo] rejects
    with [undefined], and the catch block of [connect] throws a TypeError
    of its own when it destructures that value; [connect] is rejected
    with the TypeError, not with the cause.  The same holds for a close
    without an error during the dial and during the TLS upgrade. *)
Theorem connect_throws_on_undefined_cause :
  connect_catch undefined = Throws not_an_object /\
  run [Emit RawSocket EvClose] Sample.dialled =
    connect_fail undefined (removeAllListeners RawSocket Sample.dialled) /\
  connectPc (run [Emit RawSocket EvClose] Sample.dialled) =
    RejectedWith (Some not_an_object) /\
  connectPc (run [CallConnect Sample.hp Sample.opts; Emit RawSocket EvClose]
               init) = RejectedWith (Some not_an_object) /\
  connectPc (run (Sample.upgrading ++ [Emit TlsSocket EvClose]) init) =
    RejectedWith (Some not_an_object) /\
  RejectedWith (Some not_an_object) <> RejectedWith undefined.
Proof.
  repeat split; try (vm_compute; reflexivity).
  discriminate.
Qed.

(** C2: the counterexample.  One chunk holds the greeting line followed
    by a PING.  The handshake succeeds, and the first frame yielded to the
    consumer is that whole chunk: its bytes start with the greeting line,
    they are not the extra bytes alone. *)
Lemma greeting_bytes_are_yielded :
  let chunk := Sample.greeting ++ Sample.ping in
  let w := run (pulls 1) (run (data_events RawSocket [chunk]) Sample.dialled) in
  connectPc w = Fulfilled /\
  extractProtocolMessage chunk = string_of_list_byte Sample.greeting /\
  consumed w = [chunk] /\
  firstn (List.length Sample.greeting) (DataBuffer_concat (consumed w))
    = Sample.greeting /\
  DataBuffer_concat (consumed w) <> Sample.ping.
Proof.
  cbv zeta. repeat split; try (vm_compute; reflexivity).
  vm_compute. discriminate.
Qed.

(** ** The theorems at concrete inputs *)

(** A transport that was shut down is done and connected; on a transport
    whose connection was refused, [close] changes nothing. *)
Lemma done_implies_connected_witness :
  (done (run Sample.reset init) = true /\
   connected (run Sample.reset init) = true) /\
  (let w := run [CallConnect Sample.hp Sample.opts;
                 Emit RawSocket (EvError Sample.ECONNREFUSED);
                 Emit RawSocket EvClose] init in
   connected w = false /\ close undefined w = w).
Proof.
  split.
  - split; [reflexivity|].
    apply (proj1 (done_implies_connected Sample.reset)). reflexivity.
  - cbv zeta. split; [reflexivity|].
    apply (proj2 (proj2 (done_implies_connected
             [CallConnect Sample.hp Sample.opts;
              Emit RawSocket (EvError Sample.ECONNREFUSED);
              Emit RawSocket EvClose])) eq_refl undefined false).
Defined.

Lemma done_before_closed_resolves_witness :
  closed (run Sample.reset init) = Resolved (Some Sample.ECONNRESET) /\
  isClosed (run Sample.reset init) = true.
Proof.
  split; [reflexivity|].
  apply (proj1 (done_before_closed_resolves Sample.reset)).
  vm_compute. discriminate.
Defined.

Lemma isEncrypted_only_after_secure_witness :
  isEncrypted (run Sample.upgrading init) = false /\
  isEncrypted (run Sample.encrypted init) = true /\
  secure (tlsSock (run Sample.encrypted init)) = true /\
  In (Emit TlsSocket EvSecureConnect) Sample.encrypted /\
  socket (run Sample.encrypted init) = Some TlsSocket /\
  connectPc (run Sample.encrypted init) = Fulfilled.
Proof.
  split; [reflexivity|]. split; [reflexivity|].
  exact (isEncrypted_only_after_secure Sample.encrypted eq_refl).
Defined.

Lemma connect_error_translation_witness :
  connectPc (run [CallConnect Sample.hp Sample.opts;
                  Emit RawSocket (EvError Sample.ECONNREFUSED);
                  Emit RawSocket EvClose] init) =
    RejectedWith
      (Some (errorForCode CONNECTION_REFUSED (Some Sample.ECONNREFUSED))) /\
  settle (connect_catch (Some Sample.ECONNREFUSED)) =
    RejectedWith
      (Some (errorForCode CONNECTION_REFUSED (Some Sample.ECONNREFUSED))) /\
  settle (connect_catch (Some Sample.ECONNRESET)) =
    RejectedWith (Some Sample.ECONNRESET).
Proof.
  split; [reflexivity|]. split.
  - apply (proj1 (proj2 (connect_error_translation Sample.ECONNREFUSED))).
    reflexivity.
  - apply (proj1 (proj2 (proj2
             (connect_error_translation Sample.ECONNRESET)))).
    discriminate.
Defined.

Lemma send_after_done_witness :
  let w := run Sample.reset init in
  isClosed w = true /\
  send Sample.ping Caller w = (w, SendResolved) /\
  step (CallSend Sample.ping) w = w /\
  wire (fst (send Sample.ping Caller w)) = wire w.
Proof.
  cbv zeta. split; [reflexivity|].
  apply send_after_done. reflexivity.
Defined.

Lemma final_write_then_shutdown_witness :
  let w := Sample.established in
  let w1 := close undefined w in
  let w3 := write_done (Some Sample.ECONNRESET) w1 in
  (connected w = true /\ done w = false /\
   socket w = Some RawSocket /\ options w = Some Sample.opts) /\
  wire w1 = [(RawSocket, OK_FRAME)] /\
  destroyed (rawSock w1) = false /\ done w1 = false /\
  closed w1 = Pending /\
  done w3 = true /\ closed w3 = Resolved undefined /\
  destroyed (rawSock w3) = true.
Proof.
  cbv zeta. split; [repeat split|].
  destruct (@final_write_then_shutdown RawSocket Sample.opts false
              Sample.established eq_refl eq_refl eq_refl eq_refl)
    as (Hw & _ & _ & Hk & Hr & _ & _ & Hd & Hn & Hfin).
  destruct (Hfin (Some Sample.ECONNRESET)
              (close undefined Sample.established) [] eq_refl)
    as (Hd3 & Hn3 & _ & _ & _ & Hs3).
  destruct (Hs3 RawSocket eq_refl) as (Hx & _).
  split; [exact Hw|]. split; [reflexivity|]. split; [exact Hd|].
  split; [reflexivity|]. split; [exact Hd3|]. split; [exact Hn3|exact Hx].
Defined.

Lemma frames_reach_consumer_in_order_witness :
  let ts := [Data Sample.ping; Pull; Data Sample.pong; Resume;
             Data Sample.ping] in
  let w1 := run (map (tick_event RawSocket) ts) Sample.established in
  let w2 := run (pulls (List.length (yields w1))) w1 in
  pumping RawSocket Sample.established /\
  consumed w1 ++ yields w1 =
    [Sample.greeting; Sample.ping; Sample.pong; Sample.ping] /\
  consumed w2 =
    [Sample.greeting; Sample.ping; Sample.pong; Sample.ping] /\
  yields w2 = [].
Proof.
  cbv zeta. split; [exact sample_pumping|].
  destruct (@frames_reach_consumer_in_order _ RawSocket
              [Data Sample.ping; Pull; Data Sample.pong; Resume;
               Data Sample.ping]
              Sample.established sample_pumping)
    as (H1 & H2 & H3 & _).
  split; [exact H1|]. split; [exact H2|exact H3].
Defined.

Lemma sample_prefixes_incomplete (p q : list Frame) :
  [Sample.chunk1; Sample.chunk2] = p ++ q -> p <> [] ->
  extractProtocolMessage (DataBuffer_concat p) = EmptyString.
Proof.
  intros E Hne.
  destruct p as [|a [|b [|c p]]]; cbn in E.
  - contradiction.
  - injection E as <- _. reflexivity.
  - injection E as <- <- _. reflexivity.
  - discriminate E.
Defined.

Lemma greeting_chunks_stay_queued_witness :
  let chunks := [Sample.chunk1; Sample.chunk2; Sample.chunk3] in
  let w := run (data_events RawSocket chunks) Sample.dialled in
  let w' := run (pulls 3) w in
  connectPc (run (data_events RawSocket [Sample.chunk1; Sample.chunk2])
               Sample.dialled) = AwaitingPeekInfo /\
  yields w = chunks /\
  connectPc w = Fulfilled /\
  consumed w' = chunks /\
  DataBuffer_concat (consumed w') = Sample.greeting ++ Sample.ping.
Proof.
  cbv zeta.
  destruct (@greeting_chunks_stay_queued _ Sample.hp Sample.opts
              [Sample.chunk1; Sample.chunk2] Sample.chunk3
              "{}" (JObject [])
              sample_prefixes_incomplete
              ltac:(vm_compute; discriminate) eq_refl eq_refl)
    as (H1 & _ & H3 & H4).
  destruct (H4 eq_refl (ex_intro _ None (conj eq_refl eq_refl)))
    as (H5 & _ & _ & H6 & _ & H7).
  split; [exact H1|]. split; [exact H3|]. split; [exact H5|].
  split; [exact H6|]. exact H7.
Defined.

End Runs.

(** * Further properties *)

Section More.

Context {BC : BaseClient}.

Ltac handlers :=
  unfold step, connect, emit, write_done, close, disconnect, send, next,
    wake, drain, dial_onConnect, peek_onData, peek_data, tls_onSecure,
    pump_onData, pump_onClose, connect_after_peek, connect_finish,
    connect_fail, _closed, _closed_finish, resolve_closedNotification,
    destroy_socket, socket_write, peekInfo, startTLS, setupHandlers, dial,
    on_this, on, removeAllListeners, destroy, isClosed, isEncrypted, closed,
    set_sock, sock in *; cbv zeta in *; cbn in *.

Ltac split_matches :=
  repeat match goal with
         | |- context [match ?x with _ => _ end] =>
             is_var x; destruct x; cbn in *
         | |- context [if ?x then _ else _] =>
             is_var x; destruct x; cbn in *
         | |- context [match ?x with _ => _ end] =>
             lazymatch x with
             | context [match _ with _ => _ end] => fail
             | context [if _ then _ else _] => fail
             | _ => destruct x eqn:?; cbn in *
             end
         | |- context [if ?x then _ else _] =>
             lazymatch x with
             | context [match _ with _ => _ end] => fail
             | context [if _ then _ else _] => fail
             | _ => destruct x eqn:?; cbn in *
             end
         end.

Ltac by_cases w ev :=
  destruct w as [sk ys sg cn op cd dn [lr dr sr] [lt dt st] wr wc pc it cs];
  destruct ev as [hp o|[|] [| |frame|err|]|res|err| |frame| |];
  handlers; split_matches.

Lemma flags_step (ev : Event) (w : World) :
  (connected w = true -> connected (step ev w) = true) /\
  (done w = true -> done (step ev w) = true).
Proof.
  by_cases w ev; auto; split; intros; try discriminate; auto.
Qed.

Lemma wire_step (ev : Event) (w : World) :
  wire (step ev w) = wire w \/
  (done w = false /\
   exists h f, socket w = Some h /\
     wire (step ev w) = wire w ++ [(h, f)] /\
     (ev = CallSend f \/
      (f = OK_FRAME /\ connected w = true /\
       (ev = CallClose undefined \/ ev = CallDisconnect)))).
Proof.
  by_cases w ev; auto; right; (split; [reflexivity|]);
    eexists; eexists; (split; [reflexivity|]); (split; [reflexivity|]);
    first [left; reflexivity
          | right; repeat split; auto; destruct cd; cbn in *; congruence].
Qed.

Lemma queue_step (ev : Event) (w : World) :
  consumed (step ev w) ++ yields (step ev w) =
    consumed w ++ yields w ++ delivered ev w /\
  exists more, consumed (step ev w) = consumed w ++ more.
Proof.
  by_cases w ev;
    rewrite <- ?app_assoc, ?app_nil_r; cbn;
    (split; [reflexivity|]);
    first [exists []; now rewrite app_nil_r | eexists; reflexivity].
Qed.

Lemma Inv2_init : Inv2 init.
Proof. split; cbn; intuition congruence. Qed.

Lemma Inv2_step (ev : Event) (w : World) :
  Inv w -> Inv2 w -> Inv2 (step ev w).
Proof.
  intros [Hp _ _ _ _] [H1 H2 H3].
  destruct w as [sk ys sg cn op cd dn [lr dr sr] [lt dt st] wr wc pc it cs].
  unfold phase_ok, pump_or_none, kind_of in *; cbn in *.
  destruct pc, lr, lt; cbn in Hp;
    try (exfalso; clear - Hp; intuition congruence);
    destruct ev as [hp o|[|] [| |frame|err|]|res|err| |frame| |];
    handlers; split_matches;
    split; unfold kind_of; cbn; intros;
    intuition (try congruence).
  all: subst; cbn in *; congruence.
Qed.

Lemma Inv2_run (evs : list Event) : Inv2 (run evs init).
Proof.
  assert (H : forall w, Inv w -> Inv2 w -> Inv2 (run evs w)).
  { induction evs as [|ev evs IH]; intros w HI H2; cbn; [assumption|].
    apply IH; [now apply Inv_step|now apply Inv2_step]. }
  apply H; [apply Inv_init|apply Inv2_init].
Qed.

(** X1.  No event resets a lifecycle flag: once [connected] is true it
    stays true, and once [done] is true it stays true, along every
    sequence of events. *)
Theorem flags_never_reset (evs : list Event) (w : World) :
  (connected w = true -> connected (run evs w) = true) /\
  (done w = true -> done (run evs w) = true).
Proof.
  revert w. induction evs as [|ev evs IH]; intros w; cbn; [auto|].
  destruct (flags_step ev w) as [Hc Hd]. destruct (IH (step ev w)) as [Ic Id].
  auto.
Qed.

(** X2.  The only writes to a socket are the frame of a [send] and the
    acknowledgment frame of a [close] or [disconnect] without a cause on a
    connected transport; each goes to the socket the transport holds at
    that moment, and only while it is not done.  No socket event, write
    completion or consumer request writes anything, and once the
    transport is done nothing is written any more. *)
Theorem writes_only_from_send_and_ack (ev : Event) (evs : list Event)
    (w : World) :
  (wire (step ev w) = wire w \/
   (done w = false /\
    exists h f, socket w = Some h /\
      wire (step ev w) = wire w ++ [(h, f)] /\
      (ev = CallSend f \/
       (f = OK_FRAME /\ connected w = true /\
        (ev = CallClose undefined \/ ev = CallDisconnect))))) /\
  (done w = true -> wire (run evs w) = wire w).
Proof.
  split; [apply wire_step|].
  revert w. induction evs as [|e evs IH]; intros w Hd; cbn; [reflexivity|].
  rewrite IH by (now apply flags_step).
  destruct (wire_step e w) as [H|(H & _)]; [exact H|congruence].
Qed.

(** X3.  No event takes a frame off the queue except by yielding it:
    along every sequence of events, shutdown included, the frames
    consumed followed by the frames queued are the earlier ones followed
    by the frames the data events delivered, in order; and what the
    consumer has seen only grows at its end. *)
Theorem no_frame_dropped (evs : list Event) (w : World) :
  consumed (run evs w) ++ yields (run evs w) =
    consumed w ++ yields w ++ delivered_run evs w /\
  exists more, consumed (run evs w) = consumed w ++ more.
Proof.
  revert w. induction evs as [|ev evs IH]; intros w; cbn.
  - rewrite !app_nil_r. split; [reflexivity|]. exists []. now rewrite app_nil_r.
  - destruct (IH (step ev w)) as (H1 & m1 & H2).
    destruct (queue_step ev w) as (H3 & m2 & H4).
    split.
    + rewrite H1, app_assoc, H3, <- !app_assoc. reflexivity.
    + exists (m2 ++ m1). now rewrite H2, H4, app_assoc.
Qed.

(** X4.  Once the promise of [closed()] is settled, no sequence of events
    changes its value. *)
Theorem closed_value_is_final (evs : list Event) (w : World) :
  closed w <> Pending -> closed (run evs w) = closed w.
Proof.
  revert w. induction evs as [|ev evs IH]; intros w H; cbn; [reflexivity|].
  rewrite IH; rewrite (closed_settles_once ev w H); auto.
Qed.


(** X6.  [close(err)] with a cause on a connected transport that is not
    done completes at once: no final write, the socket is stripped of its
    listeners and destroyed (the handle is kept), [done] is set, the
    notification is resolved with the cause, the queued frames stay, and
    later events of that socket are ignored. *)
Theorem close_with_cause_is_immediate (e : Error) (h : Handle) (w : World) :
  connected w = true -> done w = false -> socket w = Some h ->
  let w' := close (Some e) w in
  done w' = true /\ closed w' = resolve (closed w) (Some e) /\
  wire w' = wire w /\ writeCallbacks w' = writeCallbacks w /\
  socket w' = Some h /\
  destroyed (sock h w') = true /\ listeners (sock h w') = NoListeners /\
  yields w' = yields w /\
  (forall ev, ev <> EvSecureConnect -> emit h ev w' = w').
Proof.
  intros Hc Hd Hs.
  destruct w as [sk ys sg cn op cd dn [lr dr sr] [lt dt st] wr wc pc it cs].
  cbn in Hc, Hd, Hs. subst cd dn sk.
  destruct h; cbn; repeat split; intros [] H; try reflexivity;
    now elim H.
Qed.


(** X8.  When a chunk completes a line that is not a greeting, the
    greeting read rejects and [connect] fails: with the error
    "unexpected response from server" when the INFO pattern does not
    match, with the error of [JSON.parse] (remapped as any other) when the
    payload does not parse, and with a TypeError when the payload is
    [null] and the option check lets it pass.  In the first two cases the
    listeners are removed, the chunk stays queued, and the transport is
    neither connected nor closed by it. *)
Theorem malformed_greeting_rejects (c : Cause) (frame : Frame) (w : World) :
  listeners (rawSock w) = PeekListeners c ->
  extractProtocolMessage (DataBuffer_concat (yields w ++ [frame]))
    <> EmptyString ->
  let pm := extractProtocolMessage (DataBuffer_concat (yields w ++ [frame])) in
  let w' := step (Emit RawSocket (EvData frame)) w in
  (INFO_exec pm = None ->
   connectPc w' =
     RejectedWith
       (Some (MkError "Error" "unexpected response from server" None None)))
  /\
  (forall m1 e, INFO_exec pm = Some m1 -> JSON_parse m1 = inl e ->
     connectPc w' = settle (connect_catch (Some e))) /\
  (forall m1 opts, INFO_exec pm = Some m1 -> JSON_parse m1 = inr JNull ->
     options w = Some opts -> checkOptions JNull opts = None ->
     connectPc w' = RejectedWith (Some not_an_object)) /\
  ((INFO_exec pm = None \/
    exists m1 e, INFO_exec pm = Some m1 /\ JSON_parse m1 = inl e) ->
   listeners (rawSock w') = NoListeners /\
   connected w' = connected w /\ done w' = done w /\
   closed w' = closed w /\ signal w' = signal w /\
   yields w' = yields w ++ [frame]).
Proof.
  intros Hl Hpm. cbn zeta.
  destruct (String.eqb_spec
              (extractProtocolMessage (DataBuffer_concat (yields w ++ [frame])))
              EmptyString) as [E|_]; [contradiction|].
  assert (Hstep : step (Emit RawSocket (EvData frame)) w =
    match parse_greeting
            (extractProtocolMessage (DataBuffer_concat (yields w ++ [frame])))
    with
    | inr info =>
        connect_after_peek info
          (removeAllListeners RawSocket (set_yields (yields w ++ [frame]) w))
    | inl err =>
        connect_fail (Some err)
          (removeAllListeners RawSocket (set_yields (yields w ++ [frame]) w))
    end).
  { cbn. unfold emit. cbn. rewrite Hl. unfold peek_onData, peek_data.
    destruct (String.eqb_spec
              (extractProtocolMessage (DataBuffer_concat (yields w ++ [frame])))
              EmptyString) as [E|_]; [contradiction|].
    destruct (parse_greeting _); reflexivity. }
  rewrite Hstep. unfold parse_greeting.
  split; [|split; [|split]].
  - intros H. rewrite H. reflexivity.
  - intros m1 e H1 H2. rewrite H1, H2. reflexivity.
  - intros m1 opts H1 H2 Ho Hc. rewrite H1, H2.
    unfold connect_after_peek.
    replace (options (removeAllListeners RawSocket
               (set_yields (yields w ++ [frame]) w)))
      with (Some opts) by (symmetry; exact Ho).
    rewrite Hc. reflexivity.
  - intros [H|(m1 & e & H1 & H2)]; [rewrite H|rewrite H1, H2];
      destruct w; cbn; repeat split.
Qed.

(** X9.  After a shutdown the frame sequence ends, but not before the
    queue is empty: with [done] set and the signal resolved, a consumer
    that keeps asking is yielded every queued frame in order, then the
    generator returns, and further requests change nothing. *)
Theorem iterate_returns_after_shutdown (w : World) :
  done w = true -> signal w = Resolved tt -> iterPc w <> ItReturned ->
  let w' := run (pulls (S (List.length (yields w)))) w in
  consumed w' = consumed w ++ yields w /\ yields w' = [] /\
  iterPc w' = ItReturned /\
  (forall n, run (pulls n) w' = w').
Proof.
  intros Hd Hs Hi. cbn zeta.
  destruct w as [sk ys sg cn op cd dn rs ts wr wc pc it cs].
  cbn in Hd, Hs, Hi. subst dn sg. cbn [yields consumed].
  revert cs it Hi. induction ys as [|f ys IH]; intros cs it Hi.
  - assert (Hn : forall w0, iterPc w0 = ItReturned ->
                 forall n, run (pulls n) w0 = w0).
    { intros w0 H0 n. induction n as [|n IHn]; [reflexivity|].
      cbn. unfold next, wake. rewrite H0. cbn. rewrite H0. exact IHn. }
    destruct it; try congruence; cbn; rewrite app_nil_r;
      repeat split; intros n; now apply Hn.
  - change (pulls (S (List.length (f :: ys))))
      with (Next :: Wake :: pulls (S (List.length ys))).
    cbn [run].
    assert (Hr : step Wake (step Next
              {| socket := sk; yields := f :: ys; signal := Resolved tt;
                 closedNotification := cn; options := op; connected := cd;
                 done := true; rawSock := rs; tlsSock := ts; wire := wr;
                 writeCallbacks := wc; connectPc := pc; iterPc := it;
                 consumed := cs |}) =
              {| socket := sk; yields := ys; signal := Resolved tt;
                 closedNotification := cn; options := op; connected := cd;
                 done := true; rawSock := rs; tlsSock := ts; wire := wr;
                 writeCallbacks := wc; connectPc := pc; iterPc := ItYield;
                 consumed := cs ++ [f] |}).
    { destruct it; try congruence; reflexivity. }
    rewrite Hr.
    destruct (IH (cs ++ [f]) ItYield ltac:(discriminate)) as (H1 & H2 & H3 & H4).
    rewrite H1, <- app_assoc. repeat split; assumption.
Qed.

Lemma waiting_step (ev : Event) (w : World) :
  Inv w -> connected w = true -> signal w = Pending ->
  iterPc w = ItAwaitSignal -> is_data ev = false ->
  connected (step ev w) = true /\ signal (step ev w) = Pending /\
  iterPc (step ev w) = ItAwaitSignal /\
  consumed (step ev w) = consumed w /\ yields (step ev w) = yields w.
Proof.
  intros [Hp _ _ _ _] Hc Hs Hi Hev.
  destruct w as [sk ys sg cn op cd dn [lr dr sr] [lt dt st] wr wc pc it cs].
  unfold phase_ok, pump_or_none, kind_of in *; cbn in *. subst cd sg it.
  destruct pc; try (exfalso; intuition congruence).
  destruct lr, lt; cbn in Hp; try (exfalso; clear - Hp; intuition congruence);
    destruct ev as [hp o|[|] [| |frame|err|]|res|err| |frame| |];
    try discriminate Hev;
    handlers; split_matches; repeat split.
Qed.

(** X10.  Shutdown never resolves the readiness signal.  A consumer
    suspended on a fresh signal (the queue was drained) stays suspended
    through every sequence of events that holds no data event: calls of
    [close] and [disconnect], error and close events of the socket, write
    completions, and its own requests. *)
Theorem shutdown_leaves_consumer_waiting (evs0 evs : list Event) :
  let w := run evs0 init in
  connected w = true -> signal w = Pending -> iterPc w = ItAwaitSignal ->
  forallb (fun ev => negb (is_data ev)) evs = true ->
  let w' := run evs w in
  iterPc w' = ItAwaitSignal /\ signal w' = Pending /\
  consumed w' = consumed w /\ yields w' = yields w.
Proof.
  cbn zeta. generalize (Inv_run evs0 Inv_init).
  generalize (run evs0 init). intros w HI Hc Hs Hi Hev.
  revert w HI Hc Hs Hi.
  induction evs as [|ev evs IH]; intros w HI Hc Hs Hi; cbn; [auto|].
  cbn in Hev. apply andb_prop in Hev. destruct Hev as [He Hev].
  apply negb_true_iff in He.
  destruct (waiting_step ev HI Hc Hs Hi He) as (Hc' & Hs' & Hi' & Hk & Hy).
  destruct (IH Hev (step ev w) (Inv_step ev HI) Hc' Hs' Hi')
    as (H1 & H2 & H3 & H4).
  rewrite H3, H4, Hk, Hy. auto.
Qed.


(** X12.  Before [connect] has succeeded nothing is yielded: the signal
    is pending, the consumer has seen no frame, and a request only
    suspends the generator at its [await]. *)
Theorem nothing_consumed_before_connected (evs : list Event) :
  let w := run evs init in
  connected w = false ->
  consumed w = [] /\ signal w = Pending /\
  (iterPc w = ItStart \/ iterPc w = ItAwaitSignal) /\
  run [Next; Wake] w = set_iterPc ItAwaitSignal w.
Proof.
  cbn zeta. destruct (Inv2_run evs) as [_ Hq _]. intros Hc.
  destruct (Hq Hc) as (Hs & Hk & Hi).
  repeat split; auto.
  destruct (run evs init). cbn in *. subst.
  destruct Hi; subst; reflexivity.
Qed.


(** X14.  An error event settles nothing by itself: it only replaces the
    error recorded by the listeners of the socket; [connect], the closure
    notification, the flags, the socket slot, the queue and the wire are
    as before.  During the dial, the greeting read and the TLS upgrade
    the error handed to [connect] at the close event is the last one
    recorded. *)
Theorem error_events_only_record (h : Handle) (e1 e2 : Error) (w : World) :
  let w' := step (Emit h (EvError e2)) w in
  (connectPc w' = connectPc w /\ closed w' = closed w /\
   done w' = done w /\ connected w' = connected w /\
   socket w' = socket w /\ yields w' = yields w /\ wire w' = wire w /\
   signal w' = signal w /\ kind_of (sock h w') = kind_of (sock h w)) /\
  (forall c,
     listeners (sock h w) = DialListeners c \/
     listeners (sock h w) = PeekListeners c \/
     listeners (sock h w) = TlsListeners c ->
     connectPc (run [Emit h (EvError e1); Emit h (EvError e2); Emit h EvClose]
                  w) = settle (connect_catch (Some e2))).
Proof.
  cbn zeta.
  destruct w as [sk ys sg cn op cd dn [lr dr sr] [lt dt st] wr wc pc it cs].
  split.
  - destruct h; cbn; [destruct lr|destruct lt]; cbn; repeat split.
  - intros c H. destruct h; cbn in H; destruct H as [H|[H|H]]; subst;
      reflexivity.
Qed.

Lemma shutting_down_write_done (res : Cause) (w : World) :
  shutting_down w ->
  shutting_down (write_done res w) /\
  List.length (writeCallbacks (write_done res w)) =
    pred (List.length (writeCallbacks w)).
Proof.
  unfold shutting_down, write_done.
  destruct w as [sk ys sg cn op cd dn [lr dr sr] [lt dt st] wr wc pc it cs].
  cbn. intros [[Hd Hc]|[Hd Hw]]; subst;
    destruct wc as [|[|e] rest]; cbn in *; try discriminate; auto;
    unfold _closed_finish, resolve_closedNotification, destroy_socket; cbn;
    destruct sk as [[|]|]; cbn; (split; [left|reflexivity]);
    (split; [reflexivity|]); destruct cn; cbn; congruence.
Qed.

Lemma shutting_down_completes (rs : list Cause) (w : World) :
  shutting_down w ->
  List.length rs = List.length (writeCallbacks w) ->
  done (run (map WriteDone rs) w) = true /\
  closed (run (map WriteDone rs) w) <> Pending.
Proof.
  revert w. induction rs as [|r rs IH]; intros w Hs Hl; cbn.
  - destruct Hs as [[Hd Hc]|[Hd Hw]]; [auto|].
    destruct (writeCallbacks w); [discriminate Hw|discriminate Hl].
  - destruct (shutting_down_write_done r Hs) as (Hs' & Hl').
    apply IH; [exact Hs'|]. rewrite Hl'. cbn in Hl. lia.
Qed.

(** X15.  A shutdown always completes: after a call of the shutdown
    coordinator on a connected transport that is not done, once every
    outstanding write has reported (with or without an error) the
    transport is done and the closure notification is settled. *)
Theorem close_completes (err : Cause) (internal : bool) (rs : list Cause)
    (w : World) :
  connected w = true -> done w = false ->
  let w1 := _closed err internal w in
  List.length rs = List.length (writeCallbacks w1) ->
  done (run (map WriteDone rs) w1) = true /\
  closed (run (map WriteDone rs) w1) <> Pending.
Proof.
  intros Hc Hd. cbn zeta. apply shutting_down_completes.
  unfold shutting_down, _closed, send, isClosed. rewrite Hc, Hd. cbn.
  destruct w as [sk ys sg cn op cd dn [lr dr sr] [lt dt st] wr wc pc it cs].
  cbn in *. unfold _closed_finish, resolve_closedNotification, destroy_socket.
  destruct err, sk as [[|]|], op; cbn;
    try (left; split; [reflexivity|destruct cn; cbn; congruence]);
    right; (split; [assumption|]);
    rewrite existsb_app; cbn; apply orb_true_r.
Qed.
End More.

(** * The further properties at concrete inputs *)

Section MoreRuns.

#[local] Existing Instance Sample.client.

Lemma flags_never_reset_witness :
  done (run Sample.reset init) = true /\
  done (run [CallClose undefined; Next; Emit RawSocket EvClose]
          (run Sample.reset init)) = true.
Proof.
  split; [reflexivity|].
  exact (proj2 (@flags_never_reset Sample.client
                  [CallClose undefined; Next; Emit RawSocket EvClose]
                  (run Sample.reset init)) eq_refl).
Defined.

Lemma writes_only_from_send_and_ack_witness :
  wire (run [CallSend Sample.ping; CallClose undefined; CallDisconnect]
          (run Sample.reset init)) = wire (run Sample.reset init) /\
  wire (step (CallSend Sample.ping) Sample.established) =
    [(RawSocket, Sample.ping)].
Proof.
  split; [|reflexivity].
  exact (proj2 (@writes_only_from_send_and_ack Sample.client Next
                  [CallSend Sample.ping; CallClose undefined; CallDisconnect]
                  (run Sample.reset init)) eq_refl).
Defined.

Lemma closed_value_is_final_witness :
  closed (run Sample.reset init) = Resolved (Some Sample.ECONNRESET) /\
  closed (run [CallClose undefined; CallDisconnect; WriteDone undefined;
               CallClose (Some Sample.ECONNREFUSED)]
            (run Sample.reset init)) = Resolved (Some Sample.ECONNRESET).
Proof.
  split; [reflexivity|].
  rewrite (@closed_value_is_final Sample.client
             [CallClose undefined; CallDisconnect; WriteDone undefined;
              CallClose (Some Sample.ECONNREFUSED)]
             (run Sample.reset init)); [reflexivity|].
  vm_compute. discriminate.
Defined.


Lemma close_with_cause_is_immediate_witness :
  let w' := close (Some Sample.ECONNRESET) Sample.established in
  done w' = true /\ closed w' = Resolved (Some Sample.ECONNRESET) /\
  wire w' = [] /\ destroyed (rawSock w') = true /\
  emit RawSocket (EvData Sample.ping) w' = w'.
Proof.
  cbv zeta.
  pose proof (@close_with_cause_is_immediate Sample.client Sample.ECONNRESET RawSocket
                Sample.established eq_refl eq_refl eq_refl) as H.
  cbv zeta in H. destruct H as (H1 & H2 & H3 & _ & _ & H6 & _ & _ & H9).
  split; [exact H1|]. split; [exact H2|]. split; [exact H3|].
  split; [exact H6|]. apply H9. discriminate.
Defined.


Lemma malformed_greeting_rejects_witness :
  let w' := step (Emit RawSocket (EvData Sample.ping)) Sample.dialled in
  connectPc w' =
    RejectedWith
      (Some (MkError "Error" "unexpected response from server" None None)) /\
  listeners (rawSock w') = NoListeners /\
  connected w' = false /\ yields w' = [Sample.ping].
Proof.
  cbv zeta.
  pose proof (@malformed_greeting_rejects Sample.client undefined Sample.ping
                Sample.dialled eq_refl
                ltac:(vm_compute; discriminate)) as H.
  cbv zeta in H. destruct H as (H1 & _ & _ & H4).
  destruct (H4 (or_introl eq_refl)) as (H5 & H6 & _ & _ & _ & H7).
  split; [exact (H1 eq_refl)|]. split; [exact H5|].
  split; [exact H6|exact H7].
Defined.

Lemma iterate_returns_after_shutdown_witness :
  let w := run Sample.reset init in
  let w' := run (pulls 2) w in
  done w = true /\ yields w = [Sample.greeting] /\
  consumed w' = [Sample.greeting] /\ yields w' = [] /\
  iterPc w' = ItReturned.
Proof.
  cbv zeta. split; [reflexivity|]. split; [reflexivity|].
  pose proof (@iterate_returns_after_shutdown Sample.client (run Sample.reset init)
                eq_refl eq_refl ltac:(vm_compute; discriminate)) as H.
  cbv zeta in H. destruct H as (H1 & H2 & H3 & _).
  split; [exact H1|]. split; [exact H2|exact H3].
Defined.

Lemma shutdown_leaves_consumer_waiting_witness :
  let w := run Sample.waiting init in
  let w' := run [CallClose undefined; WriteDone undefined; Next; Wake;
                 CallDisconnect] w in
  done w' = true /\ closed w' = Resolved undefined /\
  iterPc w' = ItAwaitSignal /\ signal w' = Pending /\
  consumed w' = [Sample.greeting].
Proof.
  cbv zeta. split; [reflexivity|]. split; [reflexivity|].
  pose proof (@shutdown_leaves_consumer_waiting Sample.client Sample.waiting
                [CallClose undefined; WriteDone undefined; Next; Wake;
                 CallDisconnect]
                eq_refl eq_refl eq_refl eq_refl) as H.
  cbv zeta in H. destruct H as (H1 & H2 & H3 & _).
  split; [exact H1|]. split; [exact H2|]. rewrite H3. reflexivity.
Defined.


Lemma nothing_consumed_before_connected_witness :
  let w := run [CallConnect Sample.hp Sample.opts; Emit RawSocket EvConnect;
                Emit RawSocket (EvData Sample.chunk1); Next; Wake] init in
  yields w = [Sample.chunk1] /\ consumed w = [] /\ signal w = Pending.
Proof.
  cbv zeta. split; [reflexivity|].
  pose proof (@nothing_consumed_before_connected Sample.client
                [CallConnect Sample.hp Sample.opts; Emit RawSocket EvConnect;
                 Emit RawSocket (EvData Sample.chunk1); Next; Wake]
                eq_refl) as H.
  cbv zeta in H. destruct H as (H1 & H2 & _).
  split; [exact H1|exact H2].
Defined.


Lemma close_completes_witness :
  let w1 := close undefined Sample.established in
  done w1 = false /\
  done (run [WriteDone (Some Sample.ECONNRESET)] w1) = true /\
  closed (run [WriteDone (Some Sample.ECONNRESET)] w1) <> Pending.
Proof.
  cbv zeta. split; [reflexivity|].
  exact (@close_completes Sample.client undefined false [Some Sample.ECONNRESET]
           Sample.established eq_refl eq_refl eq_refl).
Defined.

End MoreRuns.
